(** * Piano-roll encoder and decoder of [app/utils/audio_converter.py]

    A shallow embedding of [midi_to_pianoroll_tensor] (events -> grid) and
    [pianoroll_tensor_to_midi] (grid -> events), and the properties of the
    two transforms; [midi_to_sequence], [sequence_to_midi] and
    [enhance_midi_quality] follow.

    Numbers.  Python floats and NumPy cells are modelled as exact rationals
    ([Q]); NaN and the infinities are left out.  [x / 127.0], [1.0 / fs],
    [t * fs] and the time [step * seconds_per_step] are exact, and the
    final [astype(np.float32)] of the encoder is the identity.  The one
    product whose rounding decides an integer, [start_velocity * 127] under
    [int(..)] in the decoder, is not fixed: its value is read from the
    [Library].  Arguments such as [fs] and [bpm] are Python numbers.
    [velocity_value >= velocity_threshold] compares the two numbers that
    are compared: where NumPy first converts a Python float to the type of
    the cell, [velocity_threshold] is the converted value.
    Integers are [Z]; loop counters produced by [range] are [nat].

    Collaborators.  The [pretty_midi] objects are records holding what the
    functions read or build.  Reading a MIDI file is not modelled: the
    encoder starts from the loaded [PrettyMIDI] object.  Of the calls that
    build and write a MIDI object the model keeps whether they return or
    raise, which the [Library] tells; the value of a function that writes
    a file is the note list of the instrument it writes. *)

From Stdlib Require Import String ZArith QArith Qround List Bool Lia Lqa.
From Stdlib Require Import Permutation Sorted.
Import ListNotations.

Local Open Scope Z_scope.

(** ** Python numeric built-ins *)

Module Py.

(** [int(x)] on a float: truncation toward zero. *)
Definition int (x : Q) : Z := Z.quot (Qnum x) (Z.pos (Qden x)).

(** [round(x)] on a float: nearest integer, ties to the even one. *)
Definition round (x : Q) : Z :=
  let f := Qfloor x in
  match (x - inject_Z f ?= 1 # 2)%Q with
  | Lt => f
  | Gt => f + 1
  | Eq => if Z.even f then f else f + 1
  end.

(** [math.ceil(x)]. *)
Definition ceil (x : Q) : Z := Qceiling x.

(** [np.maximum(x, y)] on two cells. *)
Definition maximum (x y : Q) : Q := if Qle_bool x y then y else x.

(** Bounds of the slice [a[i:j]] on an axis of length [n]: a negative
    index counts from the end, and both ends are clamped to [0, n]. *)
Definition slice_index (n : nat) (i : Z) : nat :=
  if i <? 0 then Z.to_nat (Z.max 0 (i + Z.of_nat n))
  else Z.to_nat (Z.min i (Z.of_nat n)).

End Py.

(** ** Data model *)

(** [pretty_midi.Note]. *)
Record Note : Type := mkNote
  { velocity : Z;
    pitch : Z;
    start : Q;
    end_ : Q }.

(** [pretty_midi.Instrument], as far as the encoder reads it. *)
Record Instrument : Type := mkInstrument
  { is_drum : bool;
    notes : list Note }.

(** [pretty_midi.PrettyMIDI], as far as the encoder reads it;
    [get_end_time] is the value returned by the method of that name. *)
Record PrettyMIDI : Type := mkPrettyMIDI
  { get_end_time : Q;
    instruments : list Instrument }.

(** A two-dimensional [np.ndarray], indexed [time_step, pitch_index]. *)
Record ndarray : Type := mkArray
  { shape : nat * nat;
    data : list (list Q) }.

Definition getitem (a : ndarray) (t p : nat) : Q :=
  nth p (nth t (data a) []) 0%Q.

(** [np.zeros((n, m))]. *)
Definition zeros (n m : nat) : ndarray :=
  mkArray (n, m) (repeat (repeat 0%Q m) n).

(** ** Collaborators of the functions that write a MIDI file

    NumPy and [pretty_midi] are not part of the source.  A [Library] holds
    what the functions that build and write a MIDI object take from them:
    the value of one float product and, for each call into [pretty_midi],
    whether the call returns ([true]) or raises ([false]).  The tempo is
    [Some bpm] for [PrettyMIDI(initial_tempo=bpm)], [None] for
    [PrettyMIDI()]. *)
Record Library : Type := mkLibrary
  { (* [x * 127] in [int(start_velocity * 127)]: a rounded product, in
        the precision that the type of the cell and NumPy's promotion
        rules give it *)
    mul_127 : Q -> Q;
    (* [pretty_midi.PrettyMIDI(initial_tempo=bpm)], [PrettyMIDI()] *)
    new_midi : option Q -> bool;
    (* [pretty_midi.Instrument(program=program)] *)
    new_instrument : Z -> bool;
    (* [pretty_midi.Note(velocity=.., pitch=.., start=.., end=..)] *)
    new_note : Note -> bool;
    (* [midi.write(file_path)], [midi] having this tempo and one
        instrument with this program and these notes *)
    write_midi : option Q -> Z -> list Note -> string -> bool }.

(** ** Encoder: [midi_to_pianoroll_tensor] *)

(** [row[p] = np.maximum(row[p], value)]. *)
Fixpoint maximum_at (p : nat) (value : Q) (row : list Q) {struct row}
    : list Q :=
  match row with
  | [] => []
  | x :: row' =>
      match p with
      | O => Py.maximum x value :: row'
      | S p' => x :: maximum_at p' value row'
      end
  end.

(** The rows of [a] after [a[lo:hi, p] = np.maximum(a[lo:hi, p], value)],
    [t] being the index of the first row of [rows]. *)
Fixpoint maximum_rows (lo hi p : nat) (value : Q) (t : nat)
    (rows : list (list Q)) : list (list Q) :=
  match rows with
  | [] => []
  | row :: rows' =>
      (if (lo <=? t)%nat && (t <? hi)%nat then maximum_at p value row else row)
        :: maximum_rows lo hi p value (S t) rows'
  end.

(** [a[i:j, p] = np.maximum(a[i:j, p], value)]. *)
Definition maximum_slice (a : ndarray) (i j : Z) (p : nat) (value : Q)
    : ndarray :=
  let n := fst (shape a) in
  mkArray (shape a)
          (maximum_rows (Py.slice_index n i) (Py.slice_index n j) p value
                        0 (data a)).

Section Encoder.

Variable fs : Q.
Variable pitch_range : Z * Z.
Variable include_velocity : bool.
Variable num_time_steps : Z.

Definition start_step (note : Note) : Z := Py.round (start note * fs).
Definition end_step (note : Note) : Z := Py.round (end_ note * fs).

(** The cell value written for a note. *)
Definition value (note : Note) : Q :=
  if include_velocity then (inject_Z (velocity note) / 127)%Q else 1%Q.

(** Body of the loop over the notes of an instrument. *)
Definition add_note (piano_roll : ndarray) (note : Note) : ndarray :=
  if (fst pitch_range <=? pitch note) && (pitch note <? snd pitch_range)
  then
    let pitch_index := pitch note - fst pitch_range in
    if start_step note <? num_time_steps then
      maximum_slice piano_roll (start_step note)
                    (Z.min (end_step note) num_time_steps)
                    (Z.to_nat pitch_index) (value note)
    else piano_roll
  else piano_roll.

(** Body of the loop over the instruments. *)
Definition add_instrument (piano_roll : ndarray) (instrument : Instrument)
    : ndarray :=
  if is_drum instrument then piano_roll
  else fold_left add_note (notes instrument) piano_roll.

End Encoder.

(** [None] is the value returned for an empty pitch range and by the
    exception handler ([np.zeros] raises on a negative dimension). *)
Definition midi_to_pianoroll_tensor (midi_data : PrettyMIDI) (fs : Q)
    (pitch_range : Z * Z) (include_velocity : bool) : option ndarray :=
  let end_time := get_end_time midi_data in
  let num_time_steps := Py.ceil (end_time * fs) in
  let num_pitches := snd pitch_range - fst pitch_range in
  if num_pitches <=? 0 then None
  else if num_time_steps <? 0 then None
  else
    Some (fold_left
            (add_instrument fs pitch_range include_velocity num_time_steps)
            (instruments midi_data)
            (zeros (Z.to_nat num_time_steps) (Z.to_nat num_pitches))).

(** ** Decoder: [pianoroll_tensor_to_midi] *)

(** [current_notes]: pitch -> (start_step, velocity).  A Python dict keeps
    insertion order, which the final loop over [.items()] follows. *)
Definition active_notes : Type := list (Z * (nat * Q)).

Fixpoint lookup (k : Z) (d : active_notes) : option (nat * Q) :=
  match d with
  | [] => None
  | (k', x) :: d' => if k' =? k then Some x else lookup k d'
  end.

(** The dict left by [current_notes.pop(pitch)]. *)
Definition pop (k : Z) (d : active_notes) : active_notes :=
  filter (fun e => negb (fst e =? k)) d.

(** [current_notes[pitch] = x] for a pitch that is not a key yet. *)
Definition setitem (k : Z) (x : nat * Q) (d : active_notes) : active_notes :=
  d ++ [(k, x)].

(** The loop state: the dict and [instrument.notes]. *)
Definition scan_state : Type := (active_notes * list Note)%type.

Section Decoder.

Variable lib : Library.
Variable piano_roll : ndarray.
Variable min_pitch : Z.
Variable seconds_per_step : Q.
Variable velocity_threshold : Q.
Variable note_duration_steps : Z.

(** The note built when the run that began at [start_step] ends at
    [end_step]. *)
Definition closing_note (pitch : Z) (start_step : nat) (start_velocity : Q)
    (end_step : nat) : Note :=
  mkNote (Py.int (mul_127 lib start_velocity))
         pitch
         (inject_Z (Z.of_nat start_step) * seconds_per_step)
         (inject_Z (Z.of_nat end_step) * seconds_per_step).

(** Body of the inner loop. *)
Definition visit (time_step pitch_index : nat) (st : scan_state)
    : scan_state :=
  let pitch := min_pitch + Z.of_nat pitch_index in
  let velocity_value := getitem piano_roll time_step pitch_index in
  let is_active := Qle_bool velocity_threshold velocity_value in
  match lookup pitch (fst st) with
  | Some (start_step, start_velocity) =>
      if negb is_active then
        let current_notes := pop pitch (fst st) in
        let duration_steps := Z.of_nat time_step - Z.of_nat start_step in
        if duration_steps >=? note_duration_steps then
          (current_notes,
           snd st ++ [closing_note pitch start_step start_velocity time_step])
        else (current_notes, snd st)
      else st
  | None =>
      if is_active then
        (setitem pitch (time_step, velocity_value) (fst st), snd st)
      else st
  end.

Definition scan_row (num_pitches : nat) (st : scan_state) (time_step : nat)
    : scan_state :=
  fold_left (fun st pitch_index => visit time_step pitch_index st)
            (seq 0 num_pitches) st.

Definition scan_grid (num_time_steps num_pitches : nat) : scan_state :=
  fold_left (scan_row num_pitches) (seq 0 num_time_steps) ([], []).

(** Body of the loop over the notes still active after the scan. *)
Definition flush (num_time_steps : nat) (out : list Note)
    (item : Z * (nat * Q)) : list Note :=
  let '(pitch, (start_step, start_velocity)) := item in
  let duration_steps := Z.of_nat num_time_steps - Z.of_nat start_step in
  if duration_steps >=? note_duration_steps then
    out ++ [closing_note pitch start_step start_velocity num_time_steps]
  else out.

End Decoder.

(** [Some notes]: the function returns [file_path], the file being
    written from an instrument that holds [notes].  [None]: the exception
    handler returns [None]; the [try] block is left when [1.0 / fs] raises
    ([fs] is 0) or when a call into [pretty_midi] raises.  A note that
    [pretty_midi.Note] refuses ends the scan where it is built; no file is
    written by then, so the notes are checked once the scan is done. *)
Definition pianoroll_tensor_to_midi (lib : Library) (piano_roll : ndarray)
    (file_path : string) (fs : Q) (pitch_range : Z * Z)
    (velocity_threshold : Q) (note_duration_steps : Z)
    (instrument_program : Z) (bpm : Q) : option (list Note) :=
  if negb (new_midi lib (Some bpm)) then None
  else if negb (new_instrument lib instrument_program) then None
  else
    let '(num_time_steps, num_pitches) := shape piano_roll in
    let min_pitch := fst pitch_range in
    if Qeq_bool fs 0 then None
    else
      let seconds_per_step := (1 / fs)%Q in
      let st := scan_grid lib piano_roll min_pitch seconds_per_step
                          velocity_threshold note_duration_steps
                          num_time_steps num_pitches in
      let notes :=
        fold_left
          (flush lib seconds_per_step note_duration_steps num_time_steps)
          (fst st) (snd st) in
      if negb (forallb (new_note lib) notes) then None
      else if negb (write_midi lib (Some bpm) instrument_program notes
                               file_path) then None
      else Some notes.

(** ** Auxiliary definitions for the statements *)

(** The notes the encoder visits, in order: those of the instruments that
    are not drums. *)
Definition sounding_notes (instruments : list Instrument) : list Note :=
  flat_map (fun i => if is_drum i then [] else notes i) instruments.

Section Cells.

Variable fs : Q.
Variable pitch_range : Z * Z.
Variable include_velocity : bool.
Variable num_time_steps : Z.

(** [writes n note t q]: cell [(t, q)] lies in the slice that [add_note]
    assigns for [note] in an array of [n] rows. *)
Definition writes (n : nat) (note : Note) (t q : nat) : bool :=
  (fst pitch_range <=? pitch note) && (pitch note <? snd pitch_range)
  && (start_step fs note <? num_time_steps)
  && ((Py.slice_index n (start_step fs note) <=? t)%nat
      && (t <? Py.slice_index n (Z.min (end_step fs note) num_time_steps))%nat
      && (q =? Z.to_nat (pitch note - fst pitch_range))%nat).

(** What [add_note] does to the value [x] of cell [(t, q)]. *)
Definition merge (n t q : nat) (x : Q) (note : Note) : Q :=
  if writes n note t q then Py.maximum x (value include_velocity note) else x.

End Cells.

(** The notes of the MIDI data whose slice contains cell [(t, q)]. *)
Definition writers (midi_data : PrettyMIDI) (fs : Q) (pitch_range : Z * Z)
    (t q : nat) : list Note :=
  let T := Py.ceil (get_end_time midi_data * fs) in
  filter (fun note => writes fs pitch_range T (Z.to_nat T) note t q)
         (sounding_notes (instruments midi_data)).

(** Column [p] of an array, from the first time step to the last. *)
Definition column (a : ndarray) (p : nat) : list Q :=
  map (fun t => getitem a t p) (seq 0 (fst (shape a))).

(** The state machine of one pitch, as it results from the scan: [open] is
    the entry of the pitch in [current_notes], [t] the time step of the
    first of [cells]; the value lists the runs that give a note, each as
    (start step, end step, onset value). *)
Section Track.

Variable velocity_threshold : Q.
Variable note_duration_steps : Z.

Definition is_active (x : Q) : bool := Qle_bool velocity_threshold x.

Definition close (open : option (nat * Q)) (t : nat) : list (nat * nat * Q) :=
  match open with
  | Some (s, v) =>
      if Z.of_nat t - Z.of_nat s >=? note_duration_steps
      then [(s, t, v)] else []
  | None => []
  end.

Fixpoint track (t : nat) (cells : list Q) (open : option (nat * Q))
    : list (nat * nat * Q) :=
  match cells with
  | [] => close open t
  | x :: cells' =>
      if is_active x then
        track (S t) cells'
              (match open with Some _ => open | None => Some (t, x) end)
      else close open t ++ track (S t) cells' None
  end.

End Track.

(** The note of a run of pitch [k]. *)
Definition note_of_run (lib : Library) (seconds_per_step : Q) (k : Z)
    (r : nat * nat * Q) : Note :=
  let '(s, e, v) := r in closing_note lib seconds_per_step k s v e.

(** [instrument.notes] at the end of the two loops of the decoder. *)
Definition scanned_notes (lib : Library) (piano_roll : ndarray) (fs : Q)
    (pitch_range : Z * Z) (velocity_threshold : Q) (note_duration_steps : Z)
    : list Note :=
  let st := scan_grid lib piano_roll (fst pitch_range) (1 / fs)
                      velocity_threshold note_duration_steps
                      (fst (shape piano_roll)) (snd (shape piano_roll)) in
  fold_left (flush lib (1 / fs) note_duration_steps (fst (shape piano_roll)))
            (fst st) (snd st).

(** A library whose product [x * 127] is exact and whose calls all
    return. *)
Definition exact_library : Library :=
  mkLibrary (fun x => x * 127)%Q (fun _ => true) (fun _ => true)
            (fun _ => true) (fun _ _ _ _ => true).

(** [has_pitch k note]: the filter that keeps the notes of pitch [k]. *)
Definition has_pitch (k : Z) (note : Note) : bool := pitch note =? k.

(** [maximal_run th f T s e]: the cells [f s .. f (e - 1)] of a column of
    [T] cells are a maximal contiguous run of active cells: all of them
    are active, the cell before (if any) and the cell after (if any) are
    not. *)
Definition maximal_run (velocity_threshold : Q) (f : nat -> Q) (T : nat)
    (s e : nat) : bool :=
  (s <? e)%nat && (e <=? T)%nat
  && forallb (fun i => is_active velocity_threshold (f i)) (seq s (e - s)%nat)
  && ((s =? 0)%nat || negb (is_active velocity_threshold (f (s - 1)%nat)))
  && ((e =? T)%nat || negb (is_active velocity_threshold (f e))).

(** Start step of a tracked run. *)
Definition run_start (r : nat * nat * Q) : nat := fst (fst r).

(** [starts_at sps s note]: the start time of [note] is that of step [s]. *)
Definition starts_at (seconds_per_step : Q) (s : nat) (note : Note) : bool :=
  Qeq_bool (start note) (inject_Z (Z.of_nat s) * seconds_per_step).

(** The notes of [out] of pitch [k] that start at step [s]. *)
Definition notes_of_run (seconds_per_step : Q) (k : Z) (s : nat)
    (out : list Note) : list Note :=
  filter (fun note => has_pitch k note && starts_at seconds_per_step s note)
         out.

(** End step of a tracked run. *)
Definition run_end (r : nat * nat * Q) : nat := snd (fst r).

(** [ends_before n1 n2]: note [n1] ends strictly before note [n2] starts. *)
Definition ends_before (n1 n2 : Note) : Prop := (end_ n1 < start n2)%Q.

(** ** The pitch sequence: [midi_to_sequence] and [sequence_to_midi] *)

(** [loaded] is the outcome of [pretty_midi.PrettyMIDI(midi_path)]: [None]
    when it raises, in which case the function returns [None]. *)
Definition midi_to_sequence (loaded : option PrettyMIDI) : option (list Z) :=
  match loaded with
  | None => None
  | Some midi_data =>
      Some (fold_left
              (fun sequence instrument =>
                 if is_drum instrument then sequence
                 else fold_left (fun sequence note => sequence ++ [pitch note])
                                (notes instrument) sequence)
              (instruments midi_data) [])
  end.

(** Body of the loop of [sequence_to_midi]; the state is [instrument.notes]
    and [current_time]. *)
Definition append_note (note_duration : Q) (st : list Note * Q) (pitch : Z)
    : list Note * Q :=
  let '(notes, current_time) := st in
  (notes ++ [mkNote 100 pitch current_time (current_time + note_duration)],
   current_time + note_duration * (1 # 2))%Q.

(** [Some notes]: the function returns [file_path], the file being
    written from an instrument that holds [notes].  [None]: an exception
    reaches the caller, there being no [try] block: the
    [ZeroDivisionError] of [60.0 / tempo] when [bpm] is 0, or what a call
    into [pretty_midi] raises. *)
Definition sequence_to_midi (lib : Library) (sequence : list Z)
    (file_path : string) (bpm : Q) (note_duration : Q)
    (instrument_program : Z) : option (list Note) :=
  if negb (new_midi lib None) then None
  else if negb (new_instrument lib instrument_program) then None
  else if Qeq_bool bpm 0 then None
  else
    let notes :=
      fst (fold_left (append_note note_duration) sequence ([], 0%Q)) in
    if negb (forallb (new_note lib) notes) then None
    else if negb (write_midi lib None instrument_program notes file_path)
    then None
    else Some notes.

(** ** [enhance_midi_quality] *)

(** Body of the inner loop.  The numbers drawn from [random] are read from
    [rand]: [rand i] holds the values of [random.randint(60, 127)] and
    [random.uniform(0.9, 1.1)] drawn for the [i]-th note visited.  The
    state is the note list of the new instrument and the number of notes
    visited. *)
Definition enhance_note (rand : nat -> Z * Q) (st : list Note * nat)
    (note : Note) : list Note * nat :=
  let '(out, i) := st in
  let velocity := fst (rand i) in
  let duration := (end_ note - start note)%Q in
  let duration_variation := (duration * snd (rand i))%Q in
  (out ++ [mkNote velocity (pitch note) (start note)
                  (start note + duration_variation)],
   S i).

(** [loaded] is the outcome of [pretty_midi.PrettyMIDI(midi_path)]: [None]
    when it raises.  [Some notes]: the function returns [output_path], the
    file being written from an instrument that holds [notes].  [None]: the
    function returns [None] (the file does not load), or a later call into
    [pretty_midi] raises, which reaches the caller. *)
Definition enhance_midi_quality (lib : Library) (loaded : option PrettyMIDI)
    (output_path : string) (rand : nat -> Z * Q) (instrument_program : Z)
    : option (list Note) :=
  match loaded with
  | None => None
  | Some midi =>
      if negb (new_midi lib None) then None
      else if negb (new_instrument lib instrument_program) then None
      else
        let notes :=
          fst (fold_left
                 (fun st instr =>
                    fold_left (enhance_note rand) (notes instr) st)
                 (instruments midi) ([], 0%nat)) in
        if negb (forallb (new_note lib) notes) then None
        else if negb (write_midi lib None instrument_program notes
                                 output_path)
        then None
        else Some notes
  end.

(** The notes of all the instruments, drums included, in order. *)
Definition all_notes (instruments : list Instrument) : list Note :=
  flat_map notes instruments.

(** The notes that the loop of [sequence_to_midi] appends from time [t]
    on. *)
Fixpoint timed_notes (note_duration : Q) (t : Q) (sequence : list Z)
    : list Note :=
  match sequence with
  | [] => []
  | pitch :: sequence' =>
      mkNote 100 pitch t (t + note_duration)
        :: timed_notes note_duration (t + note_duration * (1 # 2))%Q sequence'
  end.

(** The notes that the loops of [enhance_midi_quality] append for the
    notes [l], the first of them being the [i]-th note visited. *)
Fixpoint enhanced (rand : nat -> Z * Q) (i : nat) (l : list Note)
    : list Note :=
  match l with
  | [] => []
  | note :: l' =>
      mkNote (fst (rand i)) (pitch note) (start note)
             (start note + (end_ note - start note) * snd (rand i))
        :: enhanced rand (S i) l'
  end.

(** * Properties *)

(** ** The two scenarios of the specification *)

Example scenario_encode :
  option_map (fun a => getitem a 1 0)
    (midi_to_pianoroll_tensor
       (mkPrettyMIDI (3 # 2)
          [mkInstrument false
             [mkNote 50 60 0 1; mkNote 100 60 (1 # 2) (3 # 2)]])
       2 (60, 62) true)
  = Some (100 # 127)%Q.
Proof. reflexivity. Qed.

Example scenario_decode :
  pianoroll_tensor_to_midi exact_library
    (mkArray (4%nat, 2%nat) [[0; 0]; [1; 0]; [1; 0]; [0; 0]]%Q)
    "output_from_gan.mid" 4 (60, 62) (1 # 2) 1 0 120
  = Some [mkNote 127 60 (1 * (1 / 4)) (3 * (1 / 4))].
Proof. reflexivity. Qed.

(** ** Encoder: notes that write nothing *)

Lemma maximum_rows_empty (lo hi p : nat) (v : Q) (rows : list (list Q)) :
  forall t, (hi <= lo)%nat -> maximum_rows lo hi p v t rows = rows.
Proof.
  induction rows as [|row rows IH]; intros t Hle; simpl; [reflexivity|].
  rewrite IH by assumption.
  destruct (Nat.leb_spec lo t), (Nat.ltb_spec t hi); simpl;
    reflexivity || lia.
Qed.

Lemma maximum_slice_empty (a : ndarray) (i j : Z) (p : nat) (v : Q) :
  (Py.slice_index (fst (shape a)) j <= Py.slice_index (fst (shape a)) i)%nat ->
  maximum_slice a i j p v = a.
Proof.
  intros Hle. unfold maximum_slice.
  rewrite maximum_rows_empty by assumption.
  destruct a; reflexivity.
Qed.

Section EncoderSkips.

Variable fs : Q.
Variable pitch_range : Z * Z.
Variable include_velocity : bool.
Variable num_time_steps : Z.

Let add := add_note fs pitch_range include_velocity num_time_steps.

Lemma add_note_out_of_range (a : ndarray) (note : Note) :
  pitch note < fst pitch_range \/ snd pitch_range <= pitch note ->
  add a note = a.
Proof.
  intros Hout. unfold add, add_note.
  destruct (Z.leb_spec (fst pitch_range) (pitch note));
    destruct (Z.ltb_spec (pitch note) (snd pitch_range)); simpl;
    reflexivity || lia.
Qed.

Lemma add_note_zero_duration (a : ndarray) (note : Note) :
  start_step fs note = end_step fs note ->
  add a note = a.
Proof.
  intros Heq. unfold add, add_note.
  destruct (_ && _); [|reflexivity].
  destruct (Z.ltb_spec (start_step fs note) num_time_steps); [|reflexivity].
  apply maximum_slice_empty.
  rewrite <- Heq, Z.min_l by lia. apply Nat.le_refl.
Qed.

(** A note that leaves every array as it is can be dropped from any
    place of any instrument. *)
Lemma fold_add_instrument_skip (note : Note) :
  (forall a, add a note = a) ->
  forall (before after : list Instrument) (drum : bool)
         (l1 l2 : list Note) (a : ndarray),
    fold_left (add_instrument fs pitch_range include_velocity num_time_steps)
              (before ++ mkInstrument drum (l1 ++ note :: l2) :: after) a
    = fold_left (add_instrument fs pitch_range include_velocity
                                num_time_steps)
                (before ++ mkInstrument drum (l1 ++ l2) :: after) a.
Proof.
  intros Hskip before after drum l1 l2 a.
  rewrite !fold_left_app. cbn [fold_left]. f_equal.
  unfold add_instrument. cbn [is_drum notes].
  destruct drum; [reflexivity|].
  rewrite !fold_left_app. cbn [fold_left]. fold add.
  rewrite Hskip. reflexivity.
Qed.

End EncoderSkips.

(** C8: with an empty or inverted pitch range ([pitch_max <= pitch_min])
    the encoder returns its failure value [None]; no array is built. *)
Theorem encode_rejects_empty_pitch_range
    (midi_data : PrettyMIDI) (fs : Q) (pitch_range : Z * Z)
    (include_velocity : bool) :
  snd pitch_range <= fst pitch_range ->
  midi_to_pianoroll_tensor midi_data fs pitch_range include_velocity = None.
Proof.
  intros Hle. unfold midi_to_pianoroll_tensor.
  destruct (Z.leb_spec (snd pitch_range - fst pitch_range) 0);
    [reflexivity | lia].
Qed.

Lemma encode_rejects_empty_pitch_range_witness :
  60 <= 62 /\
  midi_to_pianoroll_tensor
    (mkPrettyMIDI 1 [mkInstrument false [mkNote 100 60 0 1]]) 4 (62, 60) true
  = None.
Proof.
  split; [lia|].
  apply (encode_rejects_empty_pitch_range
           (mkPrettyMIDI 1 [mkInstrument false [mkNote 100 60 0 1]])
           4 (62, 60) true).
  simpl. lia.
Defined.

(** C7: a note whose pitch is below [pitch_min] or at or above [pitch_max]
    changes nothing: wherever it stands in the MIDI data, the encoder
    returns what it returns without it, the same array or the same
    failure. *)
Theorem encode_ignores_out_of_range_pitch
    (fs : Q) (pitch_range : Z * Z) (include_velocity : bool)
    (end_time : Q) (before after : list Instrument) (drum : bool)
    (l1 l2 : list Note) (note : Note) :
  pitch note < fst pitch_range \/ snd pitch_range <= pitch note ->
  midi_to_pianoroll_tensor
    (mkPrettyMIDI end_time
       (before ++ mkInstrument drum (l1 ++ note :: l2) :: after))
    fs pitch_range include_velocity
  = midi_to_pianoroll_tensor
      (mkPrettyMIDI end_time (before ++ mkInstrument drum (l1 ++ l2) :: after))
      fs pitch_range include_velocity.
Proof.
  intros Hout. unfold midi_to_pianoroll_tensor. simpl.
  destruct (_ <=? 0); [reflexivity|].
  destruct (_ <? 0); [reflexivity|].
  f_equal. apply fold_add_instrument_skip.
  intros a. apply add_note_out_of_range. assumption.
Qed.

Lemma encode_ignores_out_of_range_pitch_witness :
  midi_to_pianoroll_tensor
    (mkPrettyMIDI 1
       ([] ++ mkInstrument false ([mkNote 90 60 0 1] ++ mkNote 100 62 0 1 :: [])
           :: []))
    4 (60, 62) true
  = midi_to_pianoroll_tensor
      (mkPrettyMIDI 1
         ([] ++ mkInstrument false ([mkNote 90 60 0 1] ++ []) :: []))
      4 (60, 62) true.
Proof.
  apply (encode_ignores_out_of_range_pitch 4 (60, 62) true 1 [] [] false
           [mkNote 90 60 0 1] [] (mkNote 100 62 0 1)).
  right. simpl. lia.
Defined.

(** C9: a note whose quantized start and end coincide
    ([start_step = end_step]) writes nothing: wherever it stands, the
    encoder returns what it returns without it. *)
Theorem encode_ignores_zero_duration
    (fs : Q) (pitch_range : Z * Z) (include_velocity : bool)
    (end_time : Q) (before after : list Instrument) (drum : bool)
    (l1 l2 : list Note) (note : Note) :
  start_step fs note = end_step fs note ->
  midi_to_pianoroll_tensor
    (mkPrettyMIDI end_time
       (before ++ mkInstrument drum (l1 ++ note :: l2) :: after))
    fs pitch_range include_velocity
  = midi_to_pianoroll_tensor
      (mkPrettyMIDI end_time (before ++ mkInstrument drum (l1 ++ l2) :: after))
      fs pitch_range include_velocity.
Proof.
  intros Hzero. unfold midi_to_pianoroll_tensor. simpl.
  destruct (_ <=? 0); [reflexivity|].
  destruct (_ <? 0); [reflexivity|].
  f_equal. apply fold_add_instrument_skip.
  intros a. apply add_note_zero_duration. assumption.
Qed.

Lemma encode_ignores_zero_duration_witness :
  midi_to_pianoroll_tensor
    (mkPrettyMIDI 1
       ([] ++ mkInstrument false
                ([mkNote 90 60 0 1] ++ mkNote 100 61 (1 # 2) (9 # 16) :: [])
           :: []))
    4 (60, 62) true
  = midi_to_pianoroll_tensor
      (mkPrettyMIDI 1
         ([] ++ mkInstrument false ([mkNote 90 60 0 1] ++ []) :: []))
      4 (60, 62) true.
Proof.
  apply (encode_ignores_zero_duration 4 (60, 62) true 1 [] [] false
           [mkNote 90 60 0 1] [] (mkNote 100 61 (1 # 2) (9 # 16))).
  reflexivity.
Defined.

(** ** Encoder: the value of a cell *)

(** Arrays as NumPy builds them: as many rows and columns as the shape
    says. *)
Definition well_formed (a : ndarray) : Prop :=
  length (data a) = fst (shape a) /\
  Forall (fun row => length row = snd (shape a)) (data a).

Lemma well_formed_zeros (n m : nat) : well_formed (zeros n m).
Proof.
  split; simpl.
  - apply repeat_length.
  - apply Forall_forall. intros row Hin.
    apply repeat_spec in Hin. subst row. apply repeat_length.
Qed.

Lemma getitem_zeros (n m t p : nat) : getitem (zeros n m) t p = 0%Q.
Proof.
  unfold getitem, zeros. simpl.
  destruct (Nat.ltb_spec t n) as [Ht|Ht].
  - rewrite nth_repeat_lt by assumption.
    destruct (Nat.ltb_spec p m) as [Hp|Hp].
    + apply nth_repeat_lt. assumption.
    + apply nth_overflow. rewrite repeat_length. assumption.
  - rewrite (nth_overflow (repeat _ n)) by (rewrite repeat_length; lia).
    destruct p; reflexivity.
Qed.

Lemma length_maximum_at (p : nat) (v : Q) (row : list Q) :
  length (maximum_at p v row) = length row.
Proof.
  revert p. induction row as [|x row IH]; intros [|p]; simpl; auto.
Qed.

Lemma nth_maximum_at (v : Q) (row : list Q) :
  forall p q,
    nth q (maximum_at p v row) 0%Q
    = if ((q =? p)%nat && (p <? length row)%nat)%bool
      then Py.maximum (nth q row 0%Q) v
      else nth q row 0%Q.
Proof.
  induction row as [|x row IH]; intros p q.
  - simpl. destruct p, q; simpl; rewrite ?andb_false_r; reflexivity.
  - destruct p as [|p], q as [|q]; simpl; try reflexivity.
    rewrite IH. reflexivity.
Qed.

Lemma length_maximum_rows (lo hi p : nat) (v : Q) (rows : list (list Q)) :
  forall t, length (maximum_rows lo hi p v t rows) = length rows.
Proof.
  induction rows as [|row rows IH]; intros t; simpl; auto.
Qed.

Lemma nth_maximum_rows (lo hi p : nat) (v : Q) (rows : list (list Q)) :
  forall t k,
    nth k (maximum_rows lo hi p v t rows) []
    = if ((lo <=? t + k)%nat && (t + k <? hi)%nat)%bool
      then maximum_at p v (nth k rows [])
      else nth k rows [].
Proof.
  induction rows as [|row rows IH]; intros t k.
  - simpl. destruct k; destruct (_ && _); reflexivity.
  - destruct k as [|k]; simpl.
    + rewrite Nat.add_0_r. reflexivity.
    + rewrite IH. replace (S t + k)%nat with (t + S k)%nat by lia.
      reflexivity.
Qed.

Lemma well_formed_maximum_slice (a : ndarray) (i j : Z) (p : nat) (v : Q) :
  well_formed a -> well_formed (maximum_slice a i j p v).
Proof.
  intros [Hrows Hcols]. split; simpl.
  - rewrite length_maximum_rows. assumption.
  - clear Hrows.
    set (lo := Py.slice_index _ i). set (hi := Py.slice_index _ j).
    generalize 0%nat. induction Hcols as [|row rows Hrow _ IH]; intros t;
      simpl; constructor; auto.
    destruct (_ && _); [rewrite length_maximum_at|]; assumption.
Qed.

Lemma getitem_maximum_slice (a : ndarray) (i j : Z) (p : nat) (v : Q)
    (t q : nat) :
  well_formed a -> (t < fst (shape a))%nat -> (p < snd (shape a))%nat ->
  getitem (maximum_slice a i j p v) t q
  = if ((Py.slice_index (fst (shape a)) i <=? t)%nat
        && (t <? Py.slice_index (fst (shape a)) j)%nat
        && (q =? p)%nat)%bool
    then Py.maximum (getitem a t q) v
    else getitem a t q.
Proof.
  intros [Hrows Hcols] Ht Hp. unfold getitem, maximum_slice. simpl.
  rewrite nth_maximum_rows. simpl.
  destruct (_ && _); simpl; [|reflexivity].
  rewrite nth_maximum_at.
  assert (Hlen : length (nth t (data a) []) = snd (shape a)).
  { rewrite Forall_forall in Hcols. apply Hcols, nth_In. lia. }
  rewrite Hlen. destruct (Nat.ltb_spec p (snd (shape a))); [|lia].
  rewrite andb_true_r. reflexivity.
Qed.

Section EncoderCells.

Variable fs : Q.
Variable pitch_range : Z * Z.
Variable include_velocity : bool.
Variable num_time_steps : Z.

Let add := add_note fs pitch_range include_velocity num_time_steps.
Let num_pitches := Z.to_nat (snd pitch_range - fst pitch_range).

Lemma shape_add_note (a : ndarray) (note : Note) :
  shape (add a note) = shape a.
Proof.
  unfold add, add_note.
  destruct (_ && _); [|reflexivity].
  destruct (_ <? _); reflexivity.
Qed.

Lemma well_formed_add_note (a : ndarray) (note : Note) :
  well_formed a -> well_formed (add a note).
Proof.
  intros Hwf. unfold add, add_note.
  destruct (_ && _); [|assumption].
  destruct (_ <? _); [|assumption].
  apply well_formed_maximum_slice. assumption.
Qed.

Lemma getitem_add_note (a : ndarray) (note : Note) (t q : nat) :
  well_formed a -> snd (shape a) = num_pitches -> (t < fst (shape a))%nat ->
  getitem (add a note) t q
  = merge fs pitch_range include_velocity num_time_steps (fst (shape a))
          t q (getitem a t q) note.
Proof.
  intros Hwf Hcols Ht. unfold add, add_note, merge, writes.
  destruct (Z.leb_spec (fst pitch_range) (pitch note)) as [Hlo|Hlo];
    [|reflexivity].
  destruct (Z.ltb_spec (pitch note) (snd pitch_range)) as [Hhi|Hhi];
    [|reflexivity].
  destruct (start_step fs note <? num_time_steps); [|reflexivity].
  cbn [andb]. apply getitem_maximum_slice; try assumption.
  rewrite Hcols. unfold num_pitches. lia.
Qed.

Lemma fold_add_note_invariant (l : list Note) :
  forall a,
    well_formed a ->
    well_formed (fold_left add l a)
    /\ shape (fold_left add l a) = shape a.
Proof.
  induction l as [|note l IH]; intros a Hwf; simpl; [auto|].
  destruct (IH (add a note) (well_formed_add_note a note Hwf)) as [H1 H2].
  split; [assumption|]. rewrite H2. apply shape_add_note.
Qed.

Lemma getitem_fold_add_note (t q : nat) (l : list Note) :
  forall a,
    well_formed a -> snd (shape a) = num_pitches -> (t < fst (shape a))%nat ->
    getitem (fold_left add l a) t q
    = fold_left (merge fs pitch_range include_velocity num_time_steps
                       (fst (shape a)) t q)
                l (getitem a t q).
Proof.
  induction l as [|note l IH]; intros a Hwf Hcols Ht; simpl; [reflexivity|].
  rewrite IH; rewrite ?shape_add_note; try assumption.
  - rewrite getitem_add_note by assumption. reflexivity.
  - apply well_formed_add_note. assumption.
Qed.

Lemma fold_add_instrument (instruments : list Instrument) :
  forall a,
    fold_left (add_instrument fs pitch_range include_velocity num_time_steps)
              instruments a
    = fold_left add (sounding_notes instruments) a.
Proof.
  induction instruments as [|i instruments IH]; intros a; simpl;
    [reflexivity|].
  rewrite fold_left_app, IH. unfold add_instrument.
  destruct (is_drum i); reflexivity.
Qed.

End EncoderCells.

(** The array returned by the encoder: its shape, and each of its cells as
    the merge of the notes visited, starting from 0. *)
Lemma encode_cells (midi_data : PrettyMIDI) (fs : Q) (pitch_range : Z * Z)
    (include_velocity : bool) (g : ndarray) :
  midi_to_pianoroll_tensor midi_data fs pitch_range include_velocity = Some g ->
  let T := Py.ceil (get_end_time midi_data * fs) in
  0 <= T /\ 0 < snd pitch_range - fst pitch_range /\
  well_formed g /\
  shape g = (Z.to_nat T, Z.to_nat (snd pitch_range - fst pitch_range)) /\
  forall t q,
    (t < Z.to_nat T)%nat ->
    getitem g t q
    = fold_left (merge fs pitch_range include_velocity T (Z.to_nat T) t q)
                (sounding_notes (instruments midi_data)) 0%Q.
Proof.
  intros Hg T. unfold midi_to_pianoroll_tensor in Hg. fold T in Hg.
  destruct (Z.leb_spec (snd pitch_range - fst pitch_range) 0) as [|HP];
    [discriminate|].
  destruct (Z.ltb_spec T 0) as [|HT]; [discriminate|].
  injection Hg as Hg. rewrite fold_add_instrument in Hg.
  set (P := Z.to_nat (snd pitch_range - fst pitch_range)) in *.
  pose proof (well_formed_zeros (Z.to_nat T) P) as Hwf.
  destruct (fold_add_note_invariant fs pitch_range include_velocity T
              (sounding_notes (instruments midi_data)) _ Hwf) as [Hwf' Hsh].
  rewrite Hg in Hwf', Hsh.
  split; [lia|]. split; [lia|]. split; [assumption|].
  split; [assumption|].
  intros t q Ht. rewrite <- Hg.
  rewrite getitem_fold_add_note; try assumption; try reflexivity.
  rewrite getitem_zeros. reflexivity.
Qed.

(** ** Encoder: maximum merge *)

Lemma maximum_ge_l (x y : Q) : (x <= Py.maximum x y)%Q.
Proof.
  unfold Py.maximum. destruct (Qle_bool x y) eqn:E.
  - apply Qle_bool_iff. assumption.
  - apply Qle_refl.
Qed.

Lemma maximum_ge_r (x y : Q) : (y <= Py.maximum x y)%Q.
Proof.
  unfold Py.maximum. destruct (Qle_bool x y) eqn:E.
  - apply Qle_refl.
  - destruct (Qlt_le_dec y x) as [H|H]; [apply Qlt_le_weak; assumption|].
    apply Qle_bool_iff in H. congruence.
Qed.

Lemma maximum_le (x y b : Q) :
  (x <= b)%Q -> (y <= b)%Q -> (Py.maximum x y <= b)%Q.
Proof. intros Hx Hy. unfold Py.maximum. destruct (Qle_bool x y); assumption. Qed.

Section MergeFold.

Variable fs : Q.
Variable pitch_range : Z * Z.
Variable include_velocity : bool.
Variable num_time_steps : Z.
Variables n t q : nat.

Let m := merge fs pitch_range include_velocity num_time_steps n t q.
Let w := fun note => writes fs pitch_range num_time_steps n note t q.
Let val := value include_velocity.

Lemma merge_fold_ge_init (l : list Note) :
  forall x, (x <= fold_left m l x)%Q.
Proof.
  induction l as [|note l IH]; intros x; simpl; [apply Qle_refl|].
  eapply Qle_trans; [|apply IH].
  unfold m, merge. destruct (writes _ _ _ _ _ _ _);
    [apply maximum_ge_l | apply Qle_refl].
Qed.

Lemma merge_fold_ge_note (l : list Note) (note : Note) :
  In note l -> w note = true ->
  forall x, (val note <= fold_left m l x)%Q.
Proof.
  induction l as [|note' l IH]; intros Hin Hw x; simpl; [contradiction|].
  destruct Hin as [->|Hin]; [|apply IH; assumption].
  eapply Qle_trans; [|apply merge_fold_ge_init].
  unfold m, merge. unfold w in Hw. rewrite Hw. apply maximum_ge_r.
Qed.

Lemma merge_fold_le (l : list Note) (b : Q) :
  (forall note, In note l -> w note = true -> (val note <= b)%Q) ->
  forall x, (x <= b)%Q -> (fold_left m l x <= b)%Q.
Proof.
  induction l as [|note l IH]; intros Hall x Hx; simpl; [assumption|].
  apply IH; [intros; apply Hall; simpl; auto|].
  unfold m, merge. destruct (writes _ _ _ _ _ _ _) eqn:E; [|assumption].
  apply maximum_le; [assumption|]. apply Hall; simpl; auto.
Qed.

End MergeFold.

Lemma round_nonneg_slice (n : nat) (i : Z) :
  0 <= i -> Py.slice_index n i = Z.to_nat (Z.min i (Z.of_nat n)).
Proof.
  intros Hi. unfold Py.slice_index.
  destruct (Z.ltb_spec i 0); [lia | reflexivity].
Qed.

(** A note of an instrument that is not a drum, with an in-range pitch and
    a non-negative start step, writes every cell of its step interval that
    lies in the array. *)
Lemma writes_interval (fs : Q) (pitch_range : Z * Z) (T : Z) (note : Note)
    (t : nat) :
  fst pitch_range <= pitch note < snd pitch_range ->
  0 <= start_step fs note <= Z.of_nat t ->
  Z.of_nat t < end_step fs note ->
  Z.of_nat t < T ->
  writes fs pitch_range T (Z.to_nat T) note t
         (Z.to_nat (pitch note - fst pitch_range)) = true.
Proof.
  intros Hp Hs He Ht. unfold writes.
  rewrite !round_nonneg_slice by lia.
  repeat (apply andb_true_intro; split);
    first [apply Z.leb_le | apply Z.ltb_lt | apply Nat.leb_le
          | apply Nat.ltb_lt | apply Nat.eqb_eq]; lia.
Qed.

(** C3: where the step intervals of two notes of the same in-range pitch
    overlap, with intensities [a < b], the encoded cell equals [b], the
    maximum of the written intensities ([b] being the largest intensity
    written to that cell), and not the sum [a + b] (which differs from [b]
    as soon as [a] is positive). *)
Theorem encode_overlap_is_maximum
    (midi_data : PrettyMIDI) (fs : Q) (pitch_range : Z * Z)
    (include_velocity : bool) (g : ndarray) (e1 e2 : Note) (t : nat) :
  let q := Z.to_nat (pitch e1 - fst pitch_range) in
  let a := value include_velocity e1 in
  let b := value include_velocity e2 in
  midi_to_pianoroll_tensor midi_data fs pitch_range include_velocity = Some g ->
  In e1 (sounding_notes (instruments midi_data)) ->
  In e2 (sounding_notes (instruments midi_data)) ->
  fst pitch_range <= pitch e1 < snd pitch_range ->
  pitch e2 = pitch e1 ->
  (t < fst (shape g))%nat ->
  0 <= start_step fs e1 <= Z.of_nat t /\ Z.of_nat t < end_step fs e1 ->
  0 <= start_step fs e2 <= Z.of_nat t /\ Z.of_nat t < end_step fs e2 ->
  (0 <= a)%Q -> (a < b)%Q ->
  Forall (fun note => (value include_velocity note <= b)%Q)
         (writers midi_data fs pitch_range t q) ->
  (getitem g t q == b)%Q /\ ((0 < a)%Q -> ~ (getitem g t q == a + b)%Q).
Proof.
  intros q a b Hg Hin1 Hin2 Hp Hpe Ht [Hs1 He1] [Hs2 He2] Ha Hab Hmax.
  destruct (encode_cells _ _ _ _ _ Hg) as (HT & HP & Hwf & Hsh & Hcell).
  rewrite Hsh in Ht. simpl in Ht.
  assert (Hgb : (getitem g t q == b)%Q).
  { rewrite Hcell by assumption.
    apply Qle_antisym.
    - apply merge_fold_le; [|lra].
      intros note Hin Hw. rewrite Forall_forall in Hmax. apply Hmax.
      unfold writers. apply filter_In. split; assumption.
    - apply merge_fold_ge_note; [assumption|].
      unfold q. rewrite <- Hpe. apply writes_interval; lia. }
  split; [assumption|]. intros Hpos. rewrite Hgb. lra.
Qed.

Lemma encode_overlap_is_maximum_witness :
  (getitem
     (mkArray (3%nat, 2%nat)
        [[50 # 127; 0]; [100 # 127; 0]; [100 # 127; 0]]%Q) 1 0
   == 100 # 127)%Q.
Proof.
  apply (encode_overlap_is_maximum
           (mkPrettyMIDI (3 # 2)
              [mkInstrument false
                 [mkNote 50 60 0 1; mkNote 100 60 (1 # 2) (3 # 2)]])
           2 (60, 62) true
           (mkArray (3%nat, 2%nat)
              [[50 # 127; 0]; [100 # 127; 0]; [100 # 127; 0]]%Q)
           (mkNote 50 60 0 1) (mkNote 100 60 (1 # 2) (3 # 2)) 1%nat).
  - reflexivity.
  - simpl. auto.
  - simpl. auto.
  - simpl. lia.
  - reflexivity.
  - simpl. lia.
  - vm_compute. repeat split; discriminate.
  - vm_compute. repeat split; discriminate.
  - vm_compute. discriminate.
  - vm_compute. reflexivity.
  - vm_compute. repeat constructor; discriminate.
Defined.

(** ** Decoder: the dict of active notes *)

Lemma lookup_None_iff (k : Z) (d : active_notes) :
  lookup k d = None <-> ~ In k (map fst d).
Proof.
  induction d as [|[k' x] d IH]; simpl; [tauto|].
  destruct (Z.eqb_spec k' k).
  - split; [discriminate | intros H; exfalso; auto].
  - rewrite IH. tauto.
Qed.

Lemma lookup_pop_same (k : Z) (d : active_notes) : lookup k (pop k d) = None.
Proof.
  apply lookup_None_iff. unfold pop. intros Hin.
  apply in_map_iff in Hin. destruct Hin as ([k' x] & Hk & Hin).
  apply filter_In in Hin. simpl in *. destruct Hin as [_ Hneq].
  apply negb_true_iff, Z.eqb_neq in Hneq. congruence.
Qed.

Lemma lookup_pop_other (k k' : Z) (d : active_notes) :
  k <> k' -> lookup k (pop k' d) = lookup k d.
Proof.
  intros Hneq. induction d as [|[k0 x] d IH]; simpl; [reflexivity|].
  destruct (Z.eqb_spec k0 k'); simpl.
  - destruct (Z.eqb_spec k0 k); [congruence | assumption].
  - rewrite IH. reflexivity.
Qed.

Lemma lookup_setitem_same (k : Z) (x : nat * Q) (d : active_notes) :
  lookup k d = None -> lookup k (setitem k x d) = Some x.
Proof.
  unfold setitem. induction d as [|[k0 y] d IH]; simpl.
  - rewrite Z.eqb_refl. reflexivity.
  - destruct (k0 =? k); [discriminate | assumption].
Qed.

Lemma lookup_setitem_other (k k' : Z) (x : nat * Q) (d : active_notes) :
  k <> k' -> lookup k (setitem k' x d) = lookup k d.
Proof.
  intros Hneq. unfold setitem. induction d as [|[k0 y] d IH]; simpl.
  - destruct (Z.eqb_spec k' k); [congruence | reflexivity].
  - rewrite IH. reflexivity.
Qed.

Lemma NoDup_keys_pop (k : Z) (d : active_notes) :
  NoDup (map fst d) -> NoDup (map fst (pop k d)).
Proof.
  unfold pop. induction d as [|[k0 x] d IH]; simpl; intros Hnd; [constructor|].
  inversion Hnd as [|? ? Hnotin Hnd']; subst.
  destruct (negb (k0 =? k)); simpl; [|auto].
  constructor; [|auto].
  intros Hin. apply Hnotin. apply in_map_iff in Hin.
  destruct Hin as (e & He & Hin). apply filter_In in Hin.
  apply in_map_iff. exists e. tauto.
Qed.

Lemma NoDup_keys_setitem (k : Z) (x : nat * Q) (d : active_notes) :
  lookup k d = None -> NoDup (map fst d) -> NoDup (map fst (setitem k x d)).
Proof.
  intros Hnone Hnd. unfold setitem. rewrite map_app. simpl.
  apply lookup_None_iff in Hnone.
  apply NoDup_app; [assumption | repeat constructor; simpl; tauto |].
  intros k' Hin [<-|[]]. contradiction.
Qed.

(** ** Decoder: the scan, seen from one pitch *)

Section DecoderPitch.

Variable lib : Library.
Variable piano_roll : ndarray.
Variable min_pitch : Z.
Variable seconds_per_step : Q.
Variable velocity_threshold : Q.
Variable note_duration_steps : Z.

(** The pitch index observed, and its pitch. *)
Variable p : nat.
Let k := min_pitch + Z.of_nat p.

Let visit' :=
  visit lib piano_roll min_pitch seconds_per_step velocity_threshold
        note_duration_steps.
Let to_notes := map (note_of_run lib seconds_per_step k).
Let close' := close note_duration_steps.
Let keep := filter (has_pitch k).

(** What one cell of pitch [k] does to the entry of [k] in the dict and to
    the notes of pitch [k]. *)
Let step_entry (t : nat) (x : Q) (open : option (nat * Q))
    : option (nat * Q) :=
  if is_active velocity_threshold x then
    match open with Some _ => open | None => Some (t, x) end
  else None.

Let step_notes (t : nat) (x : Q) (open : option (nat * Q)) : list Note :=
  if is_active velocity_threshold x then [] else to_notes (close' open t).

Lemma keep_app_same (out : list Note) (s e : nat) (v : Q) :
  keep (out ++ [closing_note lib seconds_per_step k s v e])
  = keep out ++ [closing_note lib seconds_per_step k s v e].
Proof.
  unfold keep. rewrite filter_app. simpl. unfold has_pitch at 2. simpl.
  rewrite Z.eqb_refl. reflexivity.
Qed.

Lemma keep_app_other (out : list Note) (k' : Z) (s e : nat) (v : Q) :
  k' <> k ->
  keep (out ++ [closing_note lib seconds_per_step k' s v e]) = keep out.
Proof.
  intros Hneq. unfold keep. rewrite filter_app. simpl.
  unfold has_pitch at 2. simpl.
  destruct (Z.eqb_spec k' k); [contradiction | apply app_nil_r].
Qed.

Lemma visit_other (t q : nat) (st : scan_state) :
  q <> p ->
  lookup k (fst (visit' t q st)) = lookup k (fst st)
  /\ keep (snd (visit' t q st)) = keep (snd st).
Proof.
  intros Hneq.
  assert (Hk : k <> min_pitch + Z.of_nat q) by (unfold k; lia).
  unfold visit', visit.
  destruct (lookup (min_pitch + Z.of_nat q) (fst st)) as [[s v]|].
  - destruct (Qle_bool _ _); simpl; [auto|].
    destruct (_ >=? _); simpl; rewrite lookup_pop_other by assumption;
      [|auto].
    split; [reflexivity|]. apply keep_app_other. auto.
  - destruct (Qle_bool _ _); simpl; [|auto].
    rewrite lookup_setitem_other by assumption. auto.
Qed.

Lemma visit_same (t : nat) (st : scan_state) :
  let x := getitem piano_roll t p in
  lookup k (fst (visit' t p st)) = step_entry t x (lookup k (fst st))
  /\ keep (snd (visit' t p st))
     = keep (snd st) ++ step_notes t x (lookup k (fst st)).
Proof.
  intros x. unfold visit', visit, step_entry, step_notes, is_active.
  fold k. fold x.
  destruct (lookup k (fst st)) as [[s v]|] eqn:Hl.
  - destruct (Qle_bool velocity_threshold x); simpl.
    + rewrite app_nil_r. auto.
    + unfold close', close.
      destruct (_ >=? _); simpl; rewrite lookup_pop_same.
      * split; [reflexivity|]. apply keep_app_same.
      * rewrite app_nil_r. auto.
  - destruct (Qle_bool velocity_threshold x); simpl; rewrite app_nil_r.
    + rewrite lookup_setitem_same by assumption. auto.
    + auto.
Qed.

Lemma visit_NoDup (t q : nat) (st : scan_state) :
  NoDup (map fst (fst st)) -> NoDup (map fst (fst (visit' t q st))).
Proof.
  intros Hnd. unfold visit', visit.
  destruct (lookup _ (fst st)) as [[s v]|] eqn:Hl.
  - destruct (Qle_bool _ _); simpl; [assumption|].
    destruct (_ >=? _); simpl; apply NoDup_keys_pop; assumption.
  - destruct (Qle_bool _ _); simpl; [|assumption].
    apply NoDup_keys_setitem; assumption.
Qed.

Lemma visits_without (t : nat) (l : list nat) :
  ~ In p l ->
  forall st : scan_state,
    let st' := fold_left (fun st q => visit' t q st) l st in
    lookup k (fst st') = lookup k (fst st) /\ keep (snd st') = keep (snd st).
Proof.
  induction l as [|q l IH]; intros Hnotin st; simpl; [auto|].
  simpl in Hnotin.
  destruct (IH (fun H => Hnotin (or_intror H)) (visit' t q st)) as [H1 H2].
  destruct (visit_other t q st) as [H3 H4]; [intros ->; auto|].
  simpl in H1, H2. rewrite H1, H2. auto.
Qed.

Lemma visits_with (t : nat) (l : list nat) :
  NoDup l -> In p l ->
  forall st : scan_state,
    let st' := fold_left (fun st q => visit' t q st) l st in
    let x := getitem piano_roll t p in
    lookup k (fst st') = step_entry t x (lookup k (fst st))
    /\ keep (snd st') = keep (snd st) ++ step_notes t x (lookup k (fst st)).
Proof.
  induction l as [|q l IH]; intros Hnd Hin st; simpl; [contradiction|].
  inversion Hnd as [|? ? Hnotin Hnd']; subst.
  destruct (Nat.eq_dec q p) as [->|Hneq].
  - destruct (visits_without t l Hnotin (visit' t p st)) as [H1 H2].
    destruct (visit_same t st) as [H3 H4].
    simpl in H1, H2. rewrite H1, H2. auto.
  - destruct Hin as [Heq|Hin]; [contradiction|].
    destruct (IH Hnd' Hin (visit' t q st)) as [H1 H2].
    destruct (visit_other t q st Hneq) as [H3 H4].
    simpl in H1, H2. rewrite H1, H2, H3, H4. auto.
Qed.

Lemma visits_NoDup (t : nat) (l : list nat) :
  forall st : scan_state,
    NoDup (map fst (fst st)) ->
    NoDup (map fst (fst (fold_left (fun st q => visit' t q st) l st))).
Proof.
  induction l as [|q l IH]; intros st Hnd; simpl; [assumption|].
  apply IH, visit_NoDup. assumption.
Qed.

Lemma flush_keep (T : nat) (d : active_notes) :
  NoDup (map fst d) ->
  forall out,
    keep (fold_left (flush lib seconds_per_step note_duration_steps T) d out)
    = keep out ++ to_notes (close' (lookup k d) T).
Proof.
  induction d as [|[k0 [s v]] d IH]; intros Hnd out; simpl.
  - rewrite app_nil_r. reflexivity.
  - inversion Hnd as [|? ? Hnotin Hnd']; subst. rewrite IH by assumption.
    destruct (Z.eqb_spec k0 k) as [->|Hneq].
    + apply lookup_None_iff in Hnotin. rewrite Hnotin. simpl.
      rewrite app_nil_r.
      destruct (_ >=? _); simpl; [apply keep_app_same|].
      rewrite app_nil_r. reflexivity.
    + f_equal. destruct (_ >=? _); [apply keep_app_other|]; auto.
Qed.

Variable num_pitches : nat.
Hypothesis p_in_range : (p < num_pitches)%nat.

Let scan_row' :=
  scan_row lib piano_roll min_pitch seconds_per_step velocity_threshold
           note_duration_steps num_pitches.

(** The notes of pitch [k] after the scan of the rows [t, t + n) and the
    final loop: those present before, then those of the runs tracked in
    column [p]. *)
Lemma scan_rows_keep (n : nat) :
  forall t (st : scan_state),
    NoDup (map fst (fst st)) ->
    let st' := fold_left scan_row' (seq t n) st in
    keep (fold_left (flush lib seconds_per_step note_duration_steps (t + n))
                    (fst st') (snd st'))
    = keep (snd st)
      ++ to_notes (track velocity_threshold note_duration_steps t
                         (map (fun t => getitem piano_roll t p) (seq t n))
                         (lookup k (fst st))).
Proof.
  induction n as [|n IH]; intros t st Hnd; simpl.
  - rewrite Nat.add_0_r. apply flush_keep. assumption.
  - replace (t + S n)%nat with (S (t + n)) by lia.
    assert (Hseq : NoDup (seq 0 num_pitches)) by apply seq_NoDup.
    assert (Hin : In p (seq 0 num_pitches)) by (apply in_seq; lia).
    assert (H1 : lookup k (fst (scan_row' st t))
                 = step_entry t (getitem piano_roll t p) (lookup k (fst st)))
      by exact (proj1 (visits_with t _ Hseq Hin st)).
    assert (H2 : keep (snd (scan_row' st t))
                 = keep (snd st)
                   ++ step_notes t (getitem piano_roll t p)
                                 (lookup k (fst st)))
      by exact (proj2 (visits_with t _ Hseq Hin st)).
    pose proof (visits_NoDup t (seq 0 num_pitches) st Hnd) as Hnd'.
    specialize (IH (S t) (scan_row' st t) Hnd'). cbv zeta in IH.
    replace (S t + n)%nat with (S (t + n)) in IH by lia.
    rewrite IH, H1, H2.
    unfold step_entry, step_notes.
    destruct (is_active velocity_threshold (getitem piano_roll t p)).
    + rewrite app_nil_r. reflexivity.
    + unfold to_notes. rewrite map_app, app_assoc. reflexivity.
Qed.

End DecoderPitch.

(** ** Decoder: the runs tracked in a column *)

Lemma in_close (nds : Z) (open : option (nat * Q)) (t s e : nat) (v : Q) :
  In (s, e, v) (close nds open t)
  <-> open = Some (s, v) /\ e = t /\ Z.of_nat e - Z.of_nat s >= nds.
Proof.
  unfold close. destruct open as [[s0 v0]|].
  - destruct (Z.geb_spec (Z.of_nat t - Z.of_nat s0) nds)
      as [Hge|Hlt]; simpl.
    + split.
      * intros [H|[]]. injection H as -> -> ->. repeat split; auto; lia.
      * intros (H & -> & _). injection H as -> ->. auto.
    + split; [tauto|]. intros (H & -> & Hl). injection H as -> ->. lia.
  - simpl. split; [tauto|]. intros (H & _). discriminate.
Qed.

Section TrackSpec.

Variable velocity_threshold : Q.
Variable note_duration_steps : Z.
Variable f : nat -> Q.

Let A (i : nat) : Prop := is_active velocity_threshold (f i) = true.
Let long (s e : nat) : Prop :=
  Z.of_nat e - Z.of_nat s >= note_duration_steps.
Let track' := track velocity_threshold note_duration_steps.

(** The run open at time step [t] ends at [e]. *)
Let carried (t n : nat) (open : option (nat * Q)) (s e : nat) (v : Q)
    : Prop :=
  open = Some (s, v) /\ (t <= e <= t + n)%nat
  /\ (forall i, (t <= i < e)%nat -> A i)
  /\ (e = (t + n)%nat \/ ~ A e) /\ long s e.

(** A run that begins at [s], at or after time step [t], ends at [e]. *)
Let fresh (t n : nat) (open : option (nat * Q)) (s e : nat) (v : Q) : Prop :=
  (t <= s < e)%nat /\ (e <= t + n)%nat
  /\ (forall i, (s <= i < e)%nat -> A i)
  /\ (s = t /\ open = None \/ (t < s)%nat /\ ~ A (s - 1)%nat)
  /\ (e = (t + n)%nat \/ ~ A e) /\ long s e /\ v = f s.

Lemma range_cons (t e : nat) :
  A t -> (forall i, (S t <= i < e)%nat -> A i) ->
  forall i, (t <= i < e)%nat -> A i.
Proof.
  intros Ht H i Hi. destruct (Nat.eq_dec i t) as [->|]; [assumption|].
  apply H. lia.
Qed.

Lemma track_spec (n : nat) :
  forall t open s e v,
    In (s, e, v) (track' t (map f (seq t n)) open)
    <-> carried t n open s e v \/ fresh t n open s e v.
Proof.
  unfold track', carried, fresh.
  induction n as [|n IH]; intros t open s e v; simpl.
  - rewrite in_close. split.
    + intros (-> & -> & Hl). left. repeat split; auto; lia.
    + intros [(-> & He & _ & _ & Hl)|(Hs & He & _)]; [|lia].
      repeat split; auto. lia.
  - replace (t + S n)%nat with (S t + n)%nat by lia.
    destruct (is_active velocity_threshold (f t)) eqn:Ht.
    + assert (HA : A t) by exact Ht.
      assert (Hprev : forall s', ~ A (s' - 1)%nat -> s' <> S t).
      { intros s' Hn ->. apply Hn. simpl. rewrite Nat.sub_0_r. exact HA. }
      rewrite IH.
      destruct open as [[s0 v0]|].
      * split.
        -- intros [(Ho & He & Hall & Hend & Hl)
                  |(Hs & He & Hall & [[_ Ho]|[Hlt Hp]] & Hend & Hl & Hv)];
             try discriminate.
           ++ left. repeat split; auto; try lia.
              apply range_cons; assumption.
           ++ right. repeat split; auto; try lia.
              right. split; [lia | assumption].
        -- intros [(Ho & He & Hall & Hend & Hl)
                  |(Hs & He & Hall & [[_ Ho]|[Hlt Hp]] & Hend & Hl & Hv)];
             try discriminate.
           ++ left.
              assert (e <> t).
              { intros ->. destruct Hend as [|Hend]; [lia | contradiction]. }
              repeat split; auto; try lia.
              intros i Hi. apply Hall. lia.
           ++ right. specialize (Hprev s Hp).
              repeat split; auto; try lia.
              right. split; [lia | assumption].
      * split.
        -- intros [(Ho & He & Hall & Hend & Hl)
                  |(Hs & He & Hall & [[_ Ho]|[Hlt Hp]] & Hend & Hl & Hv)];
             try discriminate.
           ++ injection Ho as <- <-. right. repeat split; auto; try lia.
              apply range_cons; assumption.
           ++ right. repeat split; auto; try lia.
              right. split; [lia | assumption].
        -- intros [(Ho & _)
                  |(Hs & He & Hall & [[-> _]|[Hlt Hp]] & Hend & Hl & Hv)];
             try discriminate.
           ++ left. subst v. repeat split; auto; try lia.
              intros i Hi. apply Hall. lia.
           ++ right. specialize (Hprev s Hp).
              repeat split; auto; try lia.
              right. split; [lia | assumption].
    + assert (HnA : ~ A t) by (unfold A; congruence).
      rewrite in_app_iff, in_close, IH. split.
      * intros [(Ho & -> & Hl)
               |[(Ho & _)
                |(Hs & He & Hall & Hstart & Hend & Hl & Hv)]];
          try discriminate.
        -- left. repeat split; auto; lia.
        -- right. repeat split; auto; try lia.
           right. destruct Hstart as [[-> _]|[Hlt Hp]].
           ++ split; [lia|]. simpl. rewrite Nat.sub_0_r. assumption.
           ++ split; [lia | assumption].
      * intros [(Ho & He & Hall & Hend & Hl)
               |(Hs & He & Hall & Hstart & Hend & Hl & Hv)].
        -- left. repeat split; auto.
           destruct (Nat.eq_dec e t) as [|Hneq]; [assumption|].
           exfalso. apply HnA, Hall. lia.
        -- right. right.
           assert (s <> t) by (intros ->; apply HnA, Hall; lia).
           repeat split; auto; try lia.
           destruct (Nat.eq_dec s (S t)) as [->|]; [left; auto|].
           right. split; [lia|].
           destruct Hstart as [[-> _]|[_ Hp]]; [lia | assumption].
Qed.

End TrackSpec.

Lemma maximal_run_iff (th : Q) (f : nat -> Q) (T s e : nat) :
  maximal_run th f T s e = true
  <-> (s < e <= T)%nat
      /\ (forall i, (s <= i < e)%nat -> is_active th (f i) = true)
      /\ (s = 0%nat \/ is_active th (f (s - 1)%nat) = false)
      /\ (e = T \/ is_active th (f e) = false).
Proof.
  unfold maximal_run.
  rewrite !andb_true_iff, !orb_true_iff, !negb_true_iff, forallb_forall,
    Nat.ltb_lt, Nat.leb_le, !Nat.eqb_eq.
  split.
  - intros ((((Hs & He) & Hall) & Hl) & Hr). repeat split; auto.
    intros i Hi. apply Hall, in_seq. lia.
  - intros ((Hs & He) & Hall & Hl & Hr). repeat split; auto.
    intros i Hi. apply in_seq in Hi. apply Hall. lia.
Qed.

(** The runs tracked in a whole column are its maximal runs that are long
    enough, each with the value of its first cell. *)
Lemma track_runs (th : Q) (nds : Z) (f : nat -> Q) (T s e : nat) (v : Q) :
  In (s, e, v) (track th nds 0 (map f (seq 0 T)) None)
  <-> maximal_run th f T s e = true
      /\ Z.of_nat e - Z.of_nat s >= nds /\ v = f s.
Proof.
  rewrite track_spec, maximal_run_iff. simpl. split.
  - intros [(Ho & _)|(Hs & He & Hall & Hstart & Hend & Hl & Hv)];
      [discriminate|].
    repeat split; auto; try lia.
    + destruct Hstart as [[-> _]|[_ Hp]]; [auto|].
      right. destruct (is_active th (f (s - 1)%nat)); [|reflexivity].
      exfalso. auto.
    + destruct Hend as [->|Hn]; [auto|].
      right. destruct (is_active th (f e)); [|reflexivity].
      exfalso. auto.
  - intros (((Hs & He) & Hall & Hstart & Hend) & Hl & Hv).
    right. repeat split; auto; try lia.
    + destruct Hstart as [->|Hn]; [auto|].
      destruct s as [|s']; [auto|]. right. split; [lia | congruence].
    + destruct Hend as [->|Hn]; [auto | right; congruence].
Qed.

Section TrackOrder.

Variable velocity_threshold : Q.
Variable note_duration_steps : Z.

Let track' := track velocity_threshold note_duration_steps.

Lemma track_starts (cells : list Q) :
  forall t open r,
    In r (track' t cells open) ->
    (exists v, open = Some (run_start r, v)) \/ (t <= run_start r)%nat.
Proof.
  unfold track'.
  induction cells as [|x cells IH]; intros t open r Hin; simpl in Hin.
  - destruct r as [[s e] v]. apply in_close in Hin.
    destruct Hin as (-> & _). left. exists v. reflexivity.
  - destruct (is_active velocity_threshold x).
    + apply IH in Hin. destruct Hin as [[v Ho]|Hle]; [|right; lia].
      destruct open as [[s0 v0]|]; [left; eauto|].
      injection Ho as <- _. right. lia.
    + apply in_app_iff in Hin. destruct Hin as [Hin|Hin].
      * destruct r as [[s e] v]. apply in_close in Hin.
        destruct Hin as (-> & _). left. exists v. reflexivity.
      * apply IH in Hin. destruct Hin as [[v Ho]|Hle];
          [discriminate | right; lia].
Qed.

Lemma track_NoDup (cells : list Q) :
  forall t open,
    (forall s v, open = Some (s, v) -> (s < t)%nat) ->
    NoDup (map run_start (track' t cells open)).
Proof.
  unfold track'.
  induction cells as [|x cells IH]; intros t open Hopen; simpl.
  - unfold close. destruct open as [[s v]|]; [|constructor].
    destruct (_ >=? _); simpl; repeat constructor. simpl. tauto.
  - destruct (is_active velocity_threshold x).
    + apply IH. intros s v Ho.
      destruct open as [[s0 v0]|].
      * injection Ho as <- <-. specialize (Hopen s0 v0 eq_refl). lia.
      * injection Ho as <- _. lia.
    + rewrite map_app. apply NoDup_app.
      * unfold close. destruct open as [[s v]|]; [|constructor].
        destruct (_ >=? _); simpl; repeat constructor. simpl. tauto.
      * apply IH. intros s v Ho. discriminate.
      * intros s Hin1 Hin2.
        apply in_map_iff in Hin1. destruct Hin1 as ([[s1 e1] v1] & <- & Hin1).
        apply in_close in Hin1. destruct Hin1 as (Ho & _).
        apply in_map_iff in Hin2. destruct Hin2 as (r & Hr & Hin2).
        apply (track_starts cells (S t) None) in Hin2.
        destruct Hin2 as [[v Hv]|Hle]; [discriminate|].
        specialize (Hopen s1 v1 Ho). unfold run_start at 2 in Hr.
        simpl in Hr. lia.
Qed.

End TrackOrder.

Lemma filter_unique_key {X : Type} (key : X -> nat) (l : list X) (x : X) :
  NoDup (map key l) -> In x l ->
  filter (fun y => (key y =? key x)%nat) l = [x].
Proof.
  induction l as [|y l IH]; intros Hnd Hin; simpl in *; [contradiction|].
  inversion Hnd as [|? ? Hnotin Hnd']; subst.
  destruct Hin as [->|Hin].
  - rewrite Nat.eqb_refl. f_equal.
    clear IH Hnd Hnd'. induction l as [|z l IH]; simpl; [reflexivity|].
    simpl in Hnotin. destruct (Nat.eqb_spec (key z) (key x)) as [Heq|Hneq].
    + exfalso. apply Hnotin. left. assumption.
    + apply IH. tauto.
  - destruct (Nat.eqb_spec (key y) (key x)) as [Heq|Hneq].
    + exfalso. apply Hnotin. rewrite Heq. apply in_map. assumption.
    + apply IH; assumption.
Qed.

Lemma filter_no_key {X : Type} (key : X -> nat) (l : list X) (n : nat) :
  (forall y, In y l -> key y <> n) ->
  filter (fun y => (key y =? n)%nat) l = [].
Proof.
  induction l as [|y l IH]; intros Hall; simpl; [reflexivity|].
  destruct (Nat.eqb_spec (key y) n) as [Heq|Hneq].
  - exfalso. apply (Hall y); simpl; auto.
  - apply IH. intros z Hz. apply Hall. simpl. auto.
Qed.

(** ** Decoder: the pitches of the notes *)

Section DecoderPitches.

Variable lib : Library.
Variable piano_roll : ndarray.
Variable min_pitch : Z.
Variable seconds_per_step : Q.
Variable velocity_threshold : Q.
Variable note_duration_steps : Z.
Variable num_pitches : nat.

Let in_grid (k : Z) : Prop := min_pitch <= k < min_pitch + Z.of_nat num_pitches.

Let inv (st : scan_state) : Prop :=
  Forall (fun e => in_grid (fst e)) (fst st)
  /\ Forall (fun note => in_grid (pitch note)) (snd st).

Lemma visit_in_grid (t q : nat) (st : scan_state) :
  (q < num_pitches)%nat -> inv st ->
  inv (visit lib piano_roll min_pitch seconds_per_step velocity_threshold
             note_duration_steps t q st).
Proof.
  intros Hq [Hd Hout]. unfold visit, inv, in_grid in *.
  assert (Hpop : forall k,
            Forall (fun e : Z * (nat * Q) =>
                      min_pitch <= fst e < min_pitch + Z.of_nat num_pitches)
                   (pop k (fst st))).
  { intros k. unfold pop. rewrite Forall_forall in *.
    intros e He. apply filter_In in He. apply Hd, He. }
  destruct (lookup _ (fst st)) as [[s v]|].
  - destruct (Qle_bool _ _); simpl; [auto|].
    destruct (_ >=? _); simpl; split; auto.
    apply Forall_app. split; [assumption|].
    repeat constructor; simpl; lia.
  - destruct (Qle_bool _ _); simpl; [|auto].
    split; [|assumption]. unfold setitem. apply Forall_app.
    split; [assumption|]. repeat constructor; simpl; lia.
Qed.

Lemma scan_row_in_grid (t : nat) (st : scan_state) :
  inv st ->
  inv (scan_row lib piano_roll min_pitch seconds_per_step velocity_threshold
                note_duration_steps num_pitches st t).
Proof.
  unfold scan_row.
  assert (H : forall l (st : scan_state),
             Forall (fun q => (q < num_pitches)%nat) l -> inv st ->
             inv (fold_left
                    (fun st q =>
                       visit lib piano_roll min_pitch seconds_per_step
                             velocity_threshold note_duration_steps t q st)
                    l st)).
  { induction l as [|q l IH]; intros st' Hl Hst; simpl; [assumption|].
    inversion Hl; subst. apply IH; [assumption|].
    apply visit_in_grid; assumption. }
  intros Hst. apply H; [|assumption].
  apply Forall_forall. intros q Hq. apply in_seq in Hq. lia.
Qed.

Lemma scan_grid_in_grid (T : nat) :
  inv (scan_grid lib piano_roll min_pitch seconds_per_step velocity_threshold
                 note_duration_steps T num_pitches).
Proof.
  unfold scan_grid.
  assert (H : forall l (st : scan_state),
             inv st ->
             inv (fold_left
                    (scan_row lib piano_roll min_pitch seconds_per_step
                              velocity_threshold note_duration_steps
                              num_pitches) l st)).
  { induction l as [|t l IH]; intros st Hst; simpl; [assumption|].
    apply IH, scan_row_in_grid. assumption. }
  apply H. split; constructor.
Qed.

Lemma flush_in_grid (T : nat) (d : active_notes) :
  Forall (fun e => in_grid (fst e)) d ->
  forall out,
    Forall (fun note => in_grid (pitch note)) out ->
    Forall (fun note => in_grid (pitch note))
           (fold_left (flush lib seconds_per_step note_duration_steps T) d out).
Proof.
  induction d as [|[k [s v]] d IH]; intros Hd out Hout; simpl; [assumption|].
  inversion Hd; subst. apply IH; [assumption|].
  destruct (_ >=? _); [|assumption].
  apply Forall_app. split; [assumption|].
  constructor; [exact H1 | constructor].
Qed.

End DecoderPitches.

(** ** Decoder: the notes returned *)

(** The value of the decoder, when there is one: [fs] is not 0, the notes
    are those of the scan, and no call into [pretty_midi] raised. *)
Lemma decode_Some (lib : Library) (piano_roll : ndarray) (file_path : string)
    (fs : Q) (pitch_range : Z * Z) (velocity_threshold : Q)
    (note_duration_steps : Z) (instrument_program : Z) (bpm : Q)
    (out : list Note) :
  pianoroll_tensor_to_midi lib piano_roll file_path fs pitch_range
    velocity_threshold note_duration_steps instrument_program bpm = Some out
  <-> new_midi lib (Some bpm) = true
      /\ new_instrument lib instrument_program = true
      /\ ~ (fs == 0)%Q
      /\ forallb (new_note lib) out = true
      /\ write_midi lib (Some bpm) instrument_program out file_path = true
      /\ out = scanned_notes lib piano_roll fs pitch_range velocity_threshold
                             note_duration_steps.
Proof.
  unfold pianoroll_tensor_to_midi, scanned_notes.
  destruct (shape piano_roll) as [T P]. cbn [fst snd].
  set (notes := fold_left _ _ _).
  destruct (new_midi lib (Some bpm)); cbn [negb];
    [|split; [discriminate | intros (H & _); discriminate]].
  destruct (new_instrument lib instrument_program); cbn [negb];
    [|split; [discriminate | intros (_ & H & _); discriminate]].
  destruct (Qeq_bool fs 0) eqn:E.
  { apply Qeq_bool_iff in E.
    split; [discriminate | intros (_ & _ & H & _); contradiction]. }
  apply Qeq_bool_neq in E.
  destruct (forallb (new_note lib) notes) eqn:Hn; cbn [negb].
  2:{ split; [discriminate|]. intros (_ & _ & _ & H & _ & ->). congruence. }
  destruct (write_midi lib (Some bpm) instrument_program notes file_path)
    eqn:Hw; cbn [negb].
  2:{ split; [discriminate|]. intros (_ & _ & _ & _ & H & ->). congruence. }
  split.
  - intros H. injection H as <-. repeat split; assumption.
  - intros (_ & _ & _ & _ & _ & ->). reflexivity.
Qed.

(** The decoder fails when [fs] is 0. *)
Lemma decode_None_fs (lib : Library) (piano_roll : ndarray)
    (file_path : string) (fs : Q) (pitch_range : Z * Z)
    (velocity_threshold : Q) (note_duration_steps : Z)
    (instrument_program : Z) (bpm : Q) :
  (fs == 0)%Q ->
  pianoroll_tensor_to_midi lib piano_roll file_path fs pitch_range
    velocity_threshold note_duration_steps instrument_program bpm = None.
Proof.
  intros Hfs.
  destruct (pianoroll_tensor_to_midi _ _ _ _ _ _ _ _ _) as [out|] eqn:E;
    [|reflexivity].
  apply decode_Some in E. destruct E as (_ & _ & H & _). contradiction.
Qed.

(** The notes of one pitch of the grid, in the order of the list returned:
    those of the runs tracked in the column of the pitch. *)
Lemma scanned_keep (lib : Library) (piano_roll : ndarray) (fs : Q)
    (pitch_range : Z * Z) (velocity_threshold : Q) (note_duration_steps : Z)
    (p : nat) :
  (p < snd (shape piano_roll))%nat ->
  let k := fst pitch_range + Z.of_nat p in
  filter (has_pitch k)
         (scanned_notes lib piano_roll fs pitch_range velocity_threshold
                        note_duration_steps)
  = map (note_of_run lib (1 / fs) k)
        (track velocity_threshold note_duration_steps 0
               (column piano_roll p) None).
Proof.
  unfold scanned_notes, column.
  destruct (shape piano_roll) as [T P]. simpl.
  intros Hp.
  exact (scan_rows_keep lib piano_roll (fst pitch_range) (1 / fs)
           velocity_threshold note_duration_steps p P Hp T 0%nat
           (([], []) : scan_state) (NoDup_nil _)).
Qed.

Lemma decode_keep (lib : Library) (piano_roll : ndarray) (file_path : string)
    (fs : Q) (pitch_range : Z * Z) (velocity_threshold : Q)
    (note_duration_steps : Z) (instrument_program : Z) (bpm : Q)
    (out : list Note) (p : nat) :
  pianoroll_tensor_to_midi lib piano_roll file_path fs pitch_range
    velocity_threshold note_duration_steps instrument_program bpm = Some out ->
  (p < snd (shape piano_roll))%nat ->
  let k := fst pitch_range + Z.of_nat p in
  filter (has_pitch k) out
  = map (note_of_run lib (1 / fs) k)
        (track velocity_threshold note_duration_steps 0
               (column piano_roll p) None).
Proof.
  intros Hout Hp. apply decode_Some in Hout.
  destruct Hout as (_ & _ & _ & _ & _ & ->).
  apply scanned_keep. assumption.
Qed.

Lemma scanned_pitches (lib : Library) (piano_roll : ndarray) (fs : Q)
    (pitch_range : Z * Z) (velocity_threshold : Q) (note_duration_steps : Z)
    (note : Note) :
  In note (scanned_notes lib piano_roll fs pitch_range velocity_threshold
                         note_duration_steps) ->
  exists p, (p < snd (shape piano_roll))%nat
            /\ pitch note = fst pitch_range + Z.of_nat p.
Proof.
  unfold scanned_notes.
  destruct (shape piano_roll) as [T P]. simpl.
  intros Hin.
  destruct (scan_grid_in_grid lib piano_roll (fst pitch_range) (1 / fs)
              velocity_threshold note_duration_steps P T) as [Hd Hn].
  pose proof (flush_in_grid lib (fst pitch_range) (1 / fs)
                note_duration_steps P T _ Hd _ Hn) as Hall.
  rewrite Forall_forall in Hall. specialize (Hall note Hin). simpl in Hall.
  exists (Z.to_nat (pitch note - fst pitch_range)). lia.
Qed.

Lemma decode_pitches (lib : Library) (piano_roll : ndarray)
    (file_path : string) (fs : Q) (pitch_range : Z * Z)
    (velocity_threshold : Q) (note_duration_steps : Z)
    (instrument_program : Z) (bpm : Q) (out : list Note) (note : Note) :
  pianoroll_tensor_to_midi lib piano_roll file_path fs pitch_range
    velocity_threshold note_duration_steps instrument_program bpm = Some out ->
  In note out ->
  exists p, (p < snd (shape piano_roll))%nat
            /\ pitch note = fst pitch_range + Z.of_nat p.
Proof.
  intros Hout. apply decode_Some in Hout.
  destruct Hout as (_ & _ & _ & _ & _ & ->).
  apply scanned_pitches.
Qed.

(** The notes of the scan are those of the maximal runs of the columns
    that are long enough, each with the value of the first cell of its
    run. *)
Lemma scanned_runs (lib : Library) (piano_roll : ndarray) (fs : Q)
    (pitch_range : Z * Z) (velocity_threshold : Q) (note_duration_steps : Z)
    (note : Note) :
  In note (scanned_notes lib piano_roll fs pitch_range velocity_threshold
                         note_duration_steps)
  <-> exists p s e,
        (p < snd (shape piano_roll))%nat
        /\ maximal_run velocity_threshold
                       (fun t => getitem piano_roll t p)
                       (fst (shape piano_roll)) s e = true
        /\ Z.of_nat e - Z.of_nat s >= note_duration_steps
        /\ note = closing_note lib (1 / fs) (fst pitch_range + Z.of_nat p)
                               s (getitem piano_roll s p) e.
Proof.
  set (out := scanned_notes _ _ _ _ _ _). split.
  - intros Hin.
    destruct (scanned_pitches _ _ _ _ _ _ _ Hin) as (p & Hp & Hk).
    pose proof (scanned_keep lib piano_roll fs pitch_range velocity_threshold
                  note_duration_steps p Hp) as Hkeep.
    simpl in Hkeep. fold out in Hkeep.
    assert (Hin' : In note (filter (has_pitch (fst pitch_range + Z.of_nat p))
                                   out)).
    { apply filter_In. split; [assumption|]. unfold has_pitch.
      apply Z.eqb_eq. assumption. }
    rewrite Hkeep in Hin'. apply in_map_iff in Hin'.
    destruct Hin' as ([[s e] v] & Hnote & Hrun).
    unfold column in Hrun. apply track_runs in Hrun.
    destruct Hrun as (Hmax & Hlong & ->).
    exists p, s, e. repeat split; auto.
  - intros (p & s & e & Hp & Hmax & Hlong & ->).
    pose proof (scanned_keep lib piano_roll fs pitch_range velocity_threshold
                  note_duration_steps p Hp) as Hkeep.
    simpl in Hkeep. fold out in Hkeep.
    assert (Hin : In (closing_note lib (1 / fs) (fst pitch_range + Z.of_nat p)
                                   s (getitem piano_roll s p) e)
                     (filter (has_pitch (fst pitch_range + Z.of_nat p)) out)).
    { rewrite Hkeep. apply in_map_iff.
      exists (s, e, getitem piano_roll s p). split; [reflexivity|].
      unfold column. apply track_runs. auto. }
    apply filter_In in Hin. tauto.
Qed.

(** The notes returned are those of the maximal runs of the columns that
    are long enough, each with the value of the first cell of its run. *)
Lemma decode_notes (lib : Library) (piano_roll : ndarray)
    (file_path : string) (fs : Q)
    (pitch_range : Z * Z) (velocity_threshold : Q) (note_duration_steps : Z)
    (instrument_program : Z) (bpm : Q) (out : list Note)
    (note : Note) :
  pianoroll_tensor_to_midi lib piano_roll file_path fs pitch_range
    velocity_threshold note_duration_steps instrument_program bpm = Some out ->
  In note out
  <-> exists p s e,
        (p < snd (shape piano_roll))%nat
        /\ maximal_run velocity_threshold
                       (fun t => getitem piano_roll t p)
                       (fst (shape piano_roll)) s e = true
        /\ Z.of_nat e - Z.of_nat s >= note_duration_steps
        /\ note = closing_note lib (1 / fs) (fst pitch_range + Z.of_nat p)
                               s (getitem piano_roll s p) e.
Proof.
  intros Hout. apply decode_Some in Hout.
  destruct Hout as (_ & _ & _ & _ & _ & ->).
  apply scanned_runs.
Qed.

Lemma seconds_per_step_nonzero (fs : Q) : ~ (fs == 0)%Q -> ~ (1 / fs == 0)%Q.
Proof.
  intros Hfs H. apply Hfs.
  rewrite <- (Qinv_involutive fs).
  assert (Hinv : (/ fs == 0)%Q).
  { rewrite <- H. unfold Qdiv. rewrite Qmult_1_l. reflexivity. }
  rewrite Hinv. reflexivity.
Qed.

Lemma starts_at_note_of_run (lib : Library) (sps : Q) (k : Z) (s : nat)
    (r : nat * nat * Q) :
  ~ (sps == 0)%Q ->
  starts_at sps s (note_of_run lib sps k r) = (run_start r =? s)%nat.
Proof.
  intros Hsps. destruct r as [[s' e'] v']. unfold starts_at, run_start. simpl.
  destruct (Nat.eqb_spec s' s) as [->|Hneq].
  - apply Qeq_bool_iff. reflexivity.
  - destruct (Qeq_bool _ _) eqn:E; [|reflexivity].
    apply Qeq_bool_iff in E. apply Qmult_inj_r in E; [|assumption].
    exfalso. apply Hneq. unfold Qeq in E. simpl in E. lia.
Qed.

Lemma filter_filter {X : Type} (f g : X -> bool) (l : list X) :
  filter (fun x => f x && g x) l = filter g (filter f l).
Proof.
  induction l as [|x l IH]; simpl; [reflexivity|].
  destruct (f x); simpl; [destruct (g x)|]; rewrite IH; reflexivity.
Qed.

Lemma filter_map_swap {X Y : Type} (h : X -> Y) (g : Y -> bool) (l : list X) :
  filter g (map h l) = map h (filter (fun x => g (h x)) l).
Proof.
  induction l as [|x l IH]; simpl; [reflexivity|].
  destruct (g (h x)); simpl; rewrite IH; reflexivity.
Qed.

(** The notes that come from one maximal run of a column: one note if the
    run is long enough, none otherwise. *)
Lemma decode_run (lib : Library) (piano_roll : ndarray)
    (file_path : string) (fs : Q)
    (pitch_range : Z * Z) (velocity_threshold : Q) (note_duration_steps : Z)
    (instrument_program : Z) (bpm : Q) (out : list Note)
    (p s e : nat) :
  pianoroll_tensor_to_midi lib piano_roll file_path fs pitch_range
    velocity_threshold note_duration_steps instrument_program bpm = Some out ->
  (p < snd (shape piano_roll))%nat ->
  maximal_run velocity_threshold (fun t => getitem piano_roll t p)
              (fst (shape piano_roll)) s e = true ->
  let k := fst pitch_range + Z.of_nat p in
  notes_of_run (1 / fs) k s out
  = if Z.of_nat e - Z.of_nat s >=? note_duration_steps
    then [closing_note lib (1 / fs) k s (getitem piano_roll s p) e]
    else [].
Proof.
  intros Hout Hp Hmax k. subst k.
  assert (Hfs : ~ (1 / fs == 0)%Q).
  { apply seconds_per_step_nonzero. intros H.
    apply (decode_None_fs lib piano_roll file_path fs pitch_range
             velocity_threshold note_duration_steps instrument_program bpm)
      in H.
    congruence. }
  unfold notes_of_run. rewrite filter_filter.
  pose proof (decode_keep _ _ _ _ _ _ _ _ _ _ p Hout Hp) as Hkeep.
  cbv zeta in Hkeep. rewrite Hkeep, filter_map_swap.
  rewrite (filter_ext _ (fun r => (run_start r =? s)%nat))
    by (intros r; apply starts_at_note_of_run; assumption).
  set (runs := track _ _ _ _ _).
  destruct (Z.geb_spec (Z.of_nat e - Z.of_nat s) note_duration_steps)
    as [Hlong|Hshort].
  - assert (Hin : In (s, e, getitem piano_roll s p) runs).
    { apply track_runs. repeat split; auto. lia. }
    change s with (run_start (s, e, getitem piano_roll s p)) at 1.
    rewrite filter_unique_key; [reflexivity | | assumption].
    apply track_NoDup. intros s0 v0 H. discriminate.
  - rewrite filter_no_key; [reflexivity|].
    intros [[s' e'] v'] Hin Hs. unfold run_start in Hs. simpl in Hs. subst s'.
    apply track_runs in Hin. destruct Hin as (Hmax' & Hlong & _).
    apply maximal_run_iff in Hmax, Hmax'.
    destruct Hmax as ((Hs & He) & Hall & _ & Hend).
    destruct Hmax' as ((Hs' & He') & Hall' & _ & Hend').
    assert (e' = e); [|subst; lia].
    destruct (Nat.lt_trichotomy e e') as [Hlt|[Heq|Hgt]]; [|auto|].
    + destruct Hend as [->|Hn]; [lia|].
      rewrite Hall' in Hn by lia. discriminate.
    + destruct Hend' as [->|Hn]; [lia|].
      rewrite Hall in Hn by lia. discriminate.
Qed.

(** ** Decoder: velocity *)

Lemma int_nonneg_floor (x : Q) : (0 <= x)%Q -> Py.int x = Qfloor x.
Proof.
  intros Hx. destruct x as [n d]. unfold Py.int, Qfloor. simpl.
  apply Z.quot_div_nonneg; [|lia].
  unfold Qle in Hx. simpl in Hx. lia.
Qed.

(** C1 (as the code has it): the note of a run that passes the
    minimum-duration filter has velocity [int(x * 127)], [x] being the
    cell value at the onset of the run: the float product truncated toward
    zero, never rounded to the nearest integer.  That is the floor of the
    product when the product is not negative, and the floor of the exact
    [x * 127] when moreover the float product is exact. *)
Theorem decode_velocity_truncates_onset
    (lib : Library) (piano_roll : ndarray) (file_path : string) (fs : Q)
    (pitch_range : Z * Z) (velocity_threshold : Q) (note_duration_steps : Z)
    (instrument_program : Z) (bpm : Q) (out : list Note)
    (p s e : nat) :
  pianoroll_tensor_to_midi lib piano_roll file_path fs pitch_range
    velocity_threshold note_duration_steps instrument_program bpm = Some out ->
  (p < snd (shape piano_roll))%nat ->
  maximal_run velocity_threshold (fun t => getitem piano_roll t p)
              (fst (shape piano_roll)) s e = true ->
  Z.of_nat e - Z.of_nat s >= note_duration_steps ->
  let x := getitem piano_roll s p in
  exists note,
    notes_of_run (1 / fs) (fst pitch_range + Z.of_nat p) s out = [note]
    /\ velocity note = Py.int (mul_127 lib x)
    /\ ((0 <= mul_127 lib x)%Q -> velocity note = Qfloor (mul_127 lib x))
    /\ ((mul_127 lib x == x * 127)%Q -> (0 <= x)%Q ->
        velocity note = Qfloor (x * 127)).
Proof.
  intros Hout Hp Hmax Hlong x.
  pose proof (decode_run _ _ _ _ _ _ _ _ _ _ p s e Hout Hp Hmax) as Hrun.
  cbv zeta in Hrun.
  destruct (Z.geb_spec (Z.of_nat e - Z.of_nat s) note_duration_steps);
    [|lia].
  eexists. split; [exact Hrun|]. unfold closing_note. cbn [velocity].
  fold x. split; [reflexivity|]. split.
  - apply int_nonneg_floor.
  - intros Hexact Hx. rewrite int_nonneg_floor.
    + apply Qfloor_comp. assumption.
    + rewrite Hexact. apply Qmult_le_0_compat; [assumption | discriminate].
Qed.

Lemma decode_velocity_truncates_onset_witness :
  exists note,
    notes_of_run (1 / 4) (60 + Z.of_nat 0) 0
                 [mkNote 63 60 (0 * (1 / 4)) (1 * (1 / 4))] = [note]
    /\ velocity note = Py.int (mul_127 exact_library (1 # 2))
    /\ ((0 <= mul_127 exact_library (1 # 2))%Q ->
        velocity note = Qfloor (mul_127 exact_library (1 # 2)))
    /\ ((mul_127 exact_library (1 # 2) == (1 # 2) * 127)%Q ->
        (0 <= 1 # 2)%Q ->
        velocity note = Qfloor ((1 # 2) * 127)).
Proof.
  apply (decode_velocity_truncates_onset
           exact_library (mkArray (2%nat, 1%nat) [[1 # 2]; [0]]%Q)
           "output_from_gan.mid" 4 (60, 61) (1 # 10) 1 0 120
           [mkNote 63 60 (0 * (1 / 4)) (1 * (1 / 4))] 0%nat 0%nat 1%nat).
  - reflexivity.
  - simpl. lia.
  - reflexivity.
  - simpl. lia.
Defined.

(** C1 as stated fails: the cell value 1/2 at the onset of a run gives
    velocity 63 (the product 63.5 is exact in floating point), while
    [round(63.5)] is 64. *)
Lemma decode_velocity_is_not_rounded :
  ~ (forall (lib : Library) (piano_roll : ndarray) (file_path : string)
            (fs : Q) (pitch_range : Z * Z) (velocity_threshold : Q)
            (note_duration_steps : Z) (instrument_program : Z) (bpm : Q)
            (out : list Note) (p s e : nat) (note : Note),
        pianoroll_tensor_to_midi lib piano_roll file_path fs pitch_range
          velocity_threshold note_duration_steps instrument_program bpm
        = Some out ->
        (p < snd (shape piano_roll))%nat ->
        maximal_run velocity_threshold (fun t => getitem piano_roll t p)
                    (fst (shape piano_roll)) s e = true ->
        Z.of_nat e - Z.of_nat s >= note_duration_steps ->
        (0 <= getitem piano_roll s p <= 1)%Q ->
        (mul_127 lib (getitem piano_roll s p)
         == getitem piano_roll s p * 127)%Q ->
        In note (notes_of_run (1 / fs) (fst pitch_range + Z.of_nat p) s out) ->
        velocity note = Py.round (getitem piano_roll s p * 127)).
Proof.
  intros H.
  specialize (H exact_library (mkArray (2%nat, 1%nat) [[1 # 2]; [0]]%Q)
                "output_from_gan.mid"%string 4%Q (60, 61) (1 # 10)%Q 1 0 120%Q
                [mkNote 63 60 (0 * (1 / 4)) (1 * (1 / 4))] 0%nat 0%nat 1%nat
                (mkNote 63 60 (0 * (1 / 4)) (1 * (1 / 4)))).
  assert (Hv : 63 = 64); [|discriminate].
  apply H.
  - reflexivity.
  - simpl. lia.
  - reflexivity.
  - simpl. lia.
  - split; discriminate.
  - reflexivity.
  - simpl. auto.
Qed.

(** ** Decoder: failure *)




(** ** Decoder: duration of the notes *)

Lemma step_times_lt (sps : Q) (s e : nat) :
  (0 < sps)%Q -> (s < e)%nat ->
  (inject_Z (Z.of_nat s) * sps < inject_Z (Z.of_nat e) * sps)%Q
  /\ (sps <= inject_Z (Z.of_nat e) * sps - inject_Z (Z.of_nat s) * sps)%Q.
Proof.
  intros Hsps Hse.
  assert (H : (inject_Z (Z.of_nat s) + 1 <= inject_Z (Z.of_nat e))%Q).
  { change 1%Q with (inject_Z 1). rewrite <- inject_Z_plus.
    rewrite <- Zle_Qle. lia. }
  apply (Qmult_le_compat_r _ _ sps) in H; [|apply Qlt_le_weak; assumption].
  rewrite Qmult_plus_distr_l, Qmult_1_l in H.
  split; lra.
Qed.

(** C10: with a positive sample rate, every note returned by the decoder
    ends strictly after it starts, by at least one time step [1 / fs],
    whatever the grid and the minimum duration (zero and negative values
    included). *)
Theorem decode_notes_last_a_step
    (lib : Library) (piano_roll : ndarray) (file_path : string) (fs : Q)
    (pitch_range : Z * Z) (velocity_threshold : Q) (note_duration_steps : Z)
    (instrument_program : Z) (bpm : Q) (out : list Note)
    (note : Note) :
  (0 < fs)%Q ->
  pianoroll_tensor_to_midi lib piano_roll file_path fs pitch_range
    velocity_threshold note_duration_steps instrument_program bpm = Some out ->
  In note out ->
  (start note < end_ note)%Q /\ (1 / fs <= end_ note - start note)%Q.
Proof.
  intros Hfs Hout Hin.
  apply (decode_notes _ _ _ _ _ _ _ _ _ _ _ Hout) in Hin.
  destruct Hin as (p & s & e & _ & Hmax & _ & ->).
  apply maximal_run_iff in Hmax. destruct Hmax as ((Hse & _) & _).
  simpl. apply step_times_lt; [|assumption].
  unfold Qdiv. rewrite Qmult_1_l. apply Qinv_lt_0_compat. assumption.
Qed.

Lemma decode_notes_last_a_step_witness :
  (start (mkNote 127 60 (1 * (1 / 4)) (2 * (1 / 4)))
   < end_ (mkNote 127 60 (1 * (1 / 4)) (2 * (1 / 4))))%Q
  /\ (1 / 4 <= end_ (mkNote 127 60 (1 * (1 / 4)) (2 * (1 / 4)))
               - start (mkNote 127 60 (1 * (1 / 4)) (2 * (1 / 4))))%Q.
Proof.
  apply (decode_notes_last_a_step
           exact_library (mkArray (3%nat, 1%nat) [[0]; [1]; [0]]%Q)
           "output_from_gan.mid" 4 (60, 61) (1 # 2) 0 0 120
           [mkNote 127 60 (1 * (1 / 4)) (2 * (1 / 4))]
           (mkNote 127 60 (1 * (1 / 4)) (2 * (1 / 4)))).
  - reflexivity.
  - reflexivity.
  - simpl. auto.
Defined.

(** ** Decoder: minimum duration and end of the grid *)

(** C4: for a minimum duration of at least one step, a maximal run of
    exactly [note_duration_steps - 1] active cells gives no note of its
    pitch, and a maximal run of exactly [note_duration_steps] active cells
    gives exactly one note, which starts with the run and ends with it. *)
Theorem decode_minimum_duration
    (lib : Library) (piano_roll : ndarray) (file_path : string) (fs : Q)
    (pitch_range : Z * Z) (velocity_threshold : Q) (note_duration_steps : Z)
    (instrument_program : Z) (bpm : Q) (out : list Note)
    (p s e : nat) :
  pianoroll_tensor_to_midi lib piano_roll file_path fs pitch_range
    velocity_threshold note_duration_steps instrument_program bpm = Some out ->
  (p < snd (shape piano_roll))%nat ->
  1 <= note_duration_steps ->
  maximal_run velocity_threshold (fun t => getitem piano_roll t p)
              (fst (shape piano_roll)) s e = true ->
  let k := fst pitch_range + Z.of_nat p in
  (Z.of_nat e - Z.of_nat s = note_duration_steps - 1 ->
   notes_of_run (1 / fs) k s out = [])
  /\ (Z.of_nat e - Z.of_nat s = note_duration_steps ->
      notes_of_run (1 / fs) k s out
      = [mkNote (Py.int (mul_127 lib (getitem piano_roll s p))) k
                (inject_Z (Z.of_nat s) * (1 / fs))
                (inject_Z (Z.of_nat e) * (1 / fs))]).
Proof.
  intros Hout Hp Hnds Hmax k.
  pose proof (decode_run _ _ _ _ _ _ _ _ _ _ p s e Hout Hp Hmax) as Hrun.
  cbv zeta in Hrun. fold k in Hrun.
  destruct (Z.geb_spec (Z.of_nat e - Z.of_nat s) note_duration_steps);
    split; intros Hlen; try lia; assumption.
Qed.

Lemma decode_minimum_duration_witness :
  (Z.of_nat 3 - Z.of_nat 1 = 2 - 1 ->
   notes_of_run (1 / 4) (60 + Z.of_nat 0) 1
                [mkNote 127 60 (1 * (1 / 4)) (3 * (1 / 4))] = [])
  /\ (Z.of_nat 3 - Z.of_nat 1 = 2 ->
      notes_of_run (1 / 4) (60 + Z.of_nat 0) 1
                   [mkNote 127 60 (1 * (1 / 4)) (3 * (1 / 4))]
      = [mkNote (Py.int
                   (mul_127 exact_library
                      (getitem (mkArray (4%nat, 2%nat)
                                  [[0; 0]; [1; 0]; [1; 0]; [0; 0]]%Q) 1 0)))
                (60 + Z.of_nat 0)
                (inject_Z (Z.of_nat 1) * (1 / 4))
                (inject_Z (Z.of_nat 3) * (1 / 4))]).
Proof.
  apply (decode_minimum_duration
           exact_library
           (mkArray (4%nat, 2%nat) [[0; 0]; [1; 0]; [1; 0]; [0; 0]]%Q)
           "output_from_gan.mid" 4 (60, 62) (1 # 2) 2 0 120
           [mkNote 127 60 (1 * (1 / 4)) (3 * (1 / 4))] 0%nat 1%nat 3%nat).
  - reflexivity.
  - simpl. lia.
  - lia.
  - reflexivity.
Defined.

Lemma run_start_exists (th : Q) (f : nat -> Q) (i : nat) :
  is_active th (f i) = true ->
  exists s, (s <= i)%nat
            /\ (forall j, (s <= j <= i)%nat -> is_active th (f j) = true)
            /\ (s = 0%nat \/ is_active th (f (s - 1)%nat) = false).
Proof.
  induction i as [|i IH]; intros Hi.
  - exists 0%nat. repeat split; auto.
    intros j Hj. replace j with 0%nat by lia. assumption.
  - destruct (is_active th (f i)) eqn:Hprev.
    + destruct (IH eq_refl) as (s & Hs & Hall & Hstart).
      exists s. repeat split; auto.
      intros j Hj. destruct (Nat.eq_dec j (S i)) as [->|]; [assumption|].
      apply Hall. lia.
    + exists (S i). repeat split; auto.
      * intros j Hj. replace j with (S i) by lia. assumption.
      * right. simpl. rewrite Nat.sub_0_r. assumption.
Qed.

(** C5: a pitch still active at the last time step of the grid is in a
    run that reaches the end of the grid; if the run passes the
    minimum-duration filter it gives exactly one note, which ends at
    [num_time_steps / fs], the total duration of the grid, and otherwise
    it gives none. *)
Theorem decode_flushes_at_total_duration
    (lib : Library) (piano_roll : ndarray) (file_path : string) (fs : Q)
    (pitch_range : Z * Z) (velocity_threshold : Q) (note_duration_steps : Z)
    (instrument_program : Z) (bpm : Q) (out : list Note)
    (p : nat) :
  let T := fst (shape piano_roll) in
  let k := fst pitch_range + Z.of_nat p in
  pianoroll_tensor_to_midi lib piano_roll file_path fs pitch_range
    velocity_threshold note_duration_steps instrument_program bpm = Some out ->
  (p < snd (shape piano_roll))%nat ->
  (0 < T)%nat ->
  is_active velocity_threshold (getitem piano_roll (T - 1) p) = true ->
  exists s,
    maximal_run velocity_threshold (fun t => getitem piano_roll t p) T s T
    = true
    /\ (Z.of_nat T - Z.of_nat s >= note_duration_steps ->
        exists note,
          notes_of_run (1 / fs) k s out = [note]
          /\ (end_ note == inject_Z (Z.of_nat T) / fs)%Q)
    /\ (Z.of_nat T - Z.of_nat s < note_duration_steps ->
        notes_of_run (1 / fs) k s out = []).
Proof.
  intros T k Hout Hp HT Hlast.
  destruct (run_start_exists velocity_threshold
              (fun t => getitem piano_roll t p) (T - 1) Hlast)
    as (s & Hs & Hall & Hstart).
  assert (Hmax : maximal_run velocity_threshold
                             (fun t => getitem piano_roll t p) T s T = true).
  { apply maximal_run_iff. repeat split; auto; try lia.
    intros i Hi. apply Hall. lia. }
  exists s. split; [assumption|].
  pose proof (decode_run _ _ _ _ _ _ _ _ _ _ p s T Hout Hp Hmax) as Hrun.
  cbv zeta in Hrun. fold k T in Hrun.
  destruct (Z.geb_spec (Z.of_nat T - Z.of_nat s) note_duration_steps);
    split; intros Hlen; try lia; [|assumption].
  eexists. split; [exact Hrun|]. simpl.
  unfold Qdiv. rewrite Qmult_1_l. reflexivity.
Qed.

Lemma decode_flushes_at_total_duration_witness :
  exists s,
    maximal_run (1 # 2)
      (fun t => getitem (mkArray (3%nat, 1%nat) [[0]; [1]; [1]]%Q) t 0)
      3 s 3 = true
    /\ (Z.of_nat 3 - Z.of_nat s >= 1 ->
        exists note,
          notes_of_run (1 / 4) (60 + Z.of_nat 0) s
                       [mkNote 127 60 (1 * (1 / 4)) (3 * (1 / 4))] = [note]
          /\ (end_ note == inject_Z (Z.of_nat 3) / 4)%Q)
    /\ (Z.of_nat 3 - Z.of_nat s < 1 ->
        notes_of_run (1 / 4) (60 + Z.of_nat 0) s
                     [mkNote 127 60 (1 * (1 / 4)) (3 * (1 / 4))] = []).
Proof.
  apply (decode_flushes_at_total_duration
           exact_library (mkArray (3%nat, 1%nat) [[0]; [1]; [1]]%Q)
           "output_from_gan.mid" 4 (60, 61) (1 # 2) 1 0 120
           [mkNote 127 60 (1 * (1 / 4)) (3 * (1 / 4))] 0%nat).
  - reflexivity.
  - simpl. lia.
  - simpl. lia.
  - reflexivity.
Defined.

(** ** Encoder: notes that write the same value *)

Lemma maximum_idem (v : Q) :
  Py.maximum (Py.maximum 0 v) v = Py.maximum 0 v.
Proof.
  unfold Py.maximum. destruct (Qle_bool 0 v) eqn:E.
  - destruct (Qle_bool v v); reflexivity.
  - rewrite E. reflexivity.
Qed.

(** The merge of notes that all write the same value [v] into a cell. *)
Lemma fold_merge_same (fs : Q) (pitch_range : Z * Z) (include_velocity : bool)
    (T' : Z) (n t q : nat) (v : Q) (l : list Note) :
  (forall note, In note l -> writes fs pitch_range T' n note t q = true ->
                value include_velocity note = v) ->
  forall x,
    x = 0%Q \/ x = Py.maximum 0 v ->
    fold_left (merge fs pitch_range include_velocity T' n t q) l x
    = if existsb (fun note => writes fs pitch_range T' n note t q) l
      then Py.maximum 0 v else x.
Proof.
  induction l as [|note l IH]; intros Hsame x Hx; simpl; [reflexivity|].
  unfold merge at 2.
  destruct (writes fs pitch_range T' n note t q) eqn:Hw; simpl.
  - rewrite (Hsame note (or_introl eq_refl) Hw).
    assert (Hx' : Py.maximum x v = Py.maximum 0 v).
    { destruct Hx as [->| ->]; [reflexivity | apply maximum_idem]. }
    rewrite Hx'. rewrite IH; [|intros; apply Hsame; simpl; auto | auto].
    destruct (existsb _ l); reflexivity.
  - apply IH; [intros; apply Hsame; simpl; auto | assumption].
Qed.

(** * Further properties of the encoder *)

(** When the encoder does not fail, the array it returns is rectangular,
    with [ceil(end_time * fs)] rows and [pitch_max - pitch_min] columns. *)
Theorem encode_shape
    (midi_data : PrettyMIDI) (fs : Q) (pitch_range : Z * Z)
    (include_velocity : bool) (g : ndarray) :
  midi_to_pianoroll_tensor midi_data fs pitch_range include_velocity = Some g ->
  well_formed g
  /\ Z.of_nat (fst (shape g)) = Py.ceil (get_end_time midi_data * fs)
  /\ Z.of_nat (snd (shape g)) = snd pitch_range - fst pitch_range.
Proof.
  intros Hg.
  destruct (encode_cells _ _ _ _ _ Hg) as (HT & HP & Hwf & Hsh & _).
  rewrite Hsh. simpl. split; [assumption|]. lia.
Qed.

Lemma encode_shape_witness :
  well_formed
    (mkArray (3%nat, 2%nat) [[50 # 127; 0]; [100 # 127; 0]; [100 # 127; 0]]%Q)
  /\ Z.of_nat 3 = Py.ceil ((3 # 2) * 2)
  /\ Z.of_nat 2 = 62 - 60.
Proof.
  apply (encode_shape
           (mkPrettyMIDI (3 # 2)
              [mkInstrument false
                 [mkNote 50 60 0 1; mkNote 100 60 (1 # 2) (3 # 2)]])
           2 (60, 62) true).
  reflexivity.
Defined.

(** Drum instruments are skipped: with a drum instrument anywhere in the
    MIDI data the encoder returns what it returns without it. *)
Theorem encode_skips_drums
    (fs : Q) (pitch_range : Z * Z) (include_velocity : bool) (end_time : Q)
    (before after : list Instrument) (drum_notes : list Note) :
  midi_to_pianoroll_tensor
    (mkPrettyMIDI end_time (before ++ mkInstrument true drum_notes :: after))
    fs pitch_range include_velocity
  = midi_to_pianoroll_tensor
      (mkPrettyMIDI end_time (before ++ after)) fs pitch_range include_velocity.
Proof.
  unfold midi_to_pianoroll_tensor. simpl.
  destruct (_ <=? 0); [reflexivity|].
  destruct (_ <? 0); [reflexivity|].
  rewrite !fold_left_app. reflexivity.
Qed.

(** A note that begins at or after the end of the time window
    ([start_step >= num_time_steps]) writes nothing: wherever it stands,
    the encoder returns what it returns without it. *)
Theorem encode_ignores_late_start
    (fs : Q) (pitch_range : Z * Z) (include_velocity : bool)
    (end_time : Q) (before after : list Instrument) (drum : bool)
    (l1 l2 : list Note) (note : Note) :
  Py.ceil (end_time * fs) <= start_step fs note ->
  midi_to_pianoroll_tensor
    (mkPrettyMIDI end_time
       (before ++ mkInstrument drum (l1 ++ note :: l2) :: after))
    fs pitch_range include_velocity
  = midi_to_pianoroll_tensor
      (mkPrettyMIDI end_time (before ++ mkInstrument drum (l1 ++ l2) :: after))
      fs pitch_range include_velocity.
Proof.
  intros Hlate. unfold midi_to_pianoroll_tensor. simpl.
  destruct (_ <=? 0); [reflexivity|].
  destruct (_ <? 0); [reflexivity|].
  f_equal. apply fold_add_instrument_skip.
  intros a. unfold add_note.
  destruct (_ && _); [|reflexivity].
  destruct (Z.ltb_spec (start_step fs note) (Py.ceil (end_time * fs)));
    [lia | reflexivity].
Qed.

Lemma encode_ignores_late_start_witness :
  midi_to_pianoroll_tensor
    (mkPrettyMIDI 1
       ([] ++ mkInstrument false ([mkNote 90 60 0 1] ++ mkNote 100 61 1 2 :: [])
           :: []))
    4 (60, 62) true
  = midi_to_pianoroll_tensor
      (mkPrettyMIDI 1
         ([] ++ mkInstrument false ([mkNote 90 60 0 1] ++ []) :: []))
      4 (60, 62) true.
Proof.
  apply (encode_ignores_late_start 4 (60, 62) true 1 [] [] false
           [mkNote 90 60 0 1] [] (mkNote 100 61 1 2)).
  vm_compute. discriminate.
Defined.

(** With MIDI velocities (0 to 127), or in presence mode, every cell of
    the encoded array lies between 0 and 1. *)
Theorem encode_cells_between_0_and_1
    (midi_data : PrettyMIDI) (fs : Q) (pitch_range : Z * Z)
    (include_velocity : bool) (g : ndarray) (t q : nat) :
  midi_to_pianoroll_tensor midi_data fs pitch_range include_velocity = Some g ->
  (include_velocity = true ->
   Forall (fun note => 0 <= velocity note <= 127)
          (sounding_notes (instruments midi_data))) ->
  (t < fst (shape g))%nat ->
  (0 <= getitem g t q <= 1)%Q.
Proof.
  intros Hg Hvel Ht.
  destruct (encode_cells _ _ _ _ _ Hg) as (_ & _ & _ & Hsh & Hcell).
  rewrite Hsh in Ht. simpl in Ht. rewrite Hcell by assumption.
  split; [apply merge_fold_ge_init|].
  apply merge_fold_le; [|discriminate].
  intros note Hin _. unfold value.
  destruct include_velocity; [|apply Qle_refl].
  specialize (Hvel eq_refl). rewrite Forall_forall in Hvel.
  specialize (Hvel note Hin).
  apply Qle_shift_div_r; [reflexivity|].
  rewrite Qmult_1_l. change 127%Q with (inject_Z 127).
  rewrite <- Zle_Qle. lia.
Qed.

Lemma encode_cells_between_0_and_1_witness :
  (0 <= getitem
          (mkArray (3%nat, 2%nat)
             [[50 # 127; 0]; [100 # 127; 0]; [100 # 127; 0]]%Q) 1 0
   <= 1)%Q.
Proof.
  apply (encode_cells_between_0_and_1
           (mkPrettyMIDI (3 # 2)
              [mkInstrument false
                 [mkNote 50 60 0 1; mkNote 100 60 (1 # 2) (3 # 2)]])
           2 (60, 62) true).
  - reflexivity.
  - intros _. repeat constructor; simpl; lia.
  - simpl. lia.
Defined.

Lemma existsb_filter_nil {X : Type} (f : X -> bool) (l : list X) :
  existsb f l = match filter f l with [] => false | _ => true end.
Proof.
  induction l as [|x l IH]; simpl; [reflexivity|].
  destruct (f x); simpl; [reflexivity | assumption].
Qed.

(** In presence mode a cell holds 1 when some note that is not a drum
    note writes it (its pitch is the pitch of the column and its slice of
    time steps contains the row), and 0 otherwise. *)
Theorem encode_presence_cells
    (midi_data : PrettyMIDI) (fs : Q) (pitch_range : Z * Z)
    (g : ndarray) (t q : nat) :
  midi_to_pianoroll_tensor midi_data fs pitch_range false = Some g ->
  (t < fst (shape g))%nat ->
  getitem g t q
  = match writers midi_data fs pitch_range t q with
    | [] => 0%Q
    | _ :: _ => 1%Q
    end.
Proof.
  intros Hg Ht.
  destruct (encode_cells _ _ _ _ _ Hg) as (_ & _ & _ & Hsh & Hcell).
  rewrite Hsh in Ht. simpl in Ht. rewrite Hcell by assumption.
  rewrite (fold_merge_same _ _ _ _ _ _ _ 1%Q);
    [| intros; reflexivity | left; reflexivity].
  rewrite existsb_filter_nil. unfold writers.
  destruct (filter _ _); reflexivity.
Qed.

Lemma encode_presence_cells_witness :
  getitem (mkArray (3%nat, 2%nat) [[1; 0]; [1; 0]; [1; 0]]%Q) 1 1
  = match writers
            (mkPrettyMIDI (3 # 2)
               [mkInstrument false
                  [mkNote 50 60 0 1; mkNote 100 60 (1 # 2) (3 # 2)]])
            2 (60, 62) 1 1 with
    | [] => 0%Q
    | _ :: _ => 1%Q
    end.
Proof.
  apply (encode_presence_cells
           (mkPrettyMIDI (3 # 2)
              [mkInstrument false
                 [mkNote 50 60 0 1; mkNote 100 60 (1 # 2) (3 # 2)]])
           2 (60, 62)
           (mkArray (3%nat, 2%nat) [[1; 0]; [1; 0]; [1; 0]]%Q) 1%nat 1%nat).
  - reflexivity.
  - simpl. lia.
Defined.

(** *** The order of the notes *)

Section MergeBounds.

Variable fs : Q.
Variable pitch_range : Z * Z.
Variable include_velocity : bool.
Variable num_time_steps : Z.
Variables n t q : nat.

Let m := merge fs pitch_range include_velocity num_time_steps n t q.
Let w := fun note => writes fs pitch_range num_time_steps n note t q.
Let val := value include_velocity.

(** The upper bounds of a merged cell are those of its initial value and
    of the values written to it. *)
Lemma merge_fold_le_iff (l : list Note) :
  forall x z,
    (fold_left m l x <= z)%Q
    <-> (x <= z)%Q
        /\ (forall note, In note l -> w note = true -> (val note <= z)%Q).
Proof.
  intros x z. split.
  - intros Hle. split.
    + eapply Qle_trans; [apply merge_fold_ge_init | exact Hle].
    + intros note Hin Hw.
      eapply Qle_trans; [|exact Hle].
      apply merge_fold_ge_note; assumption.
  - intros [Hx Hall]. apply merge_fold_le; assumption.
Qed.

Lemma merge_fold_same_notes (l1 l2 : list Note) (x : Q) :
  (forall note, In note l1 <-> In note l2) ->
  (fold_left m l1 x == fold_left m l2 x)%Q.
Proof.
  intros Hsame. apply Qle_antisym.
  - apply merge_fold_le_iff.
    destruct (proj1 (merge_fold_le_iff l2 x (fold_left m l2 x))
                    (Qle_refl _)) as [Hx Hall].
    split; [assumption|]. intros note Hin. apply Hall, Hsame, Hin.
  - apply merge_fold_le_iff.
    destruct (proj1 (merge_fold_le_iff l1 x (fold_left m l1 x))
                    (Qle_refl _)) as [Hx Hall].
    split; [assumption|]. intros note Hin. apply Hall, Hsame, Hin.
Qed.

End MergeBounds.

(** The encoded array does not depend on the order of the notes: two MIDI
    data with the same end time whose notes (drums apart) are a
    permutation of each other give arrays of the same shape with equal
    cells. *)
Theorem encode_order_independent
    (m1 m2 : PrettyMIDI) (fs : Q) (pitch_range : Z * Z)
    (include_velocity : bool) (g1 : ndarray) :
  get_end_time m1 = get_end_time m2 ->
  Permutation (sounding_notes (instruments m1))
              (sounding_notes (instruments m2)) ->
  midi_to_pianoroll_tensor m1 fs pitch_range include_velocity = Some g1 ->
  exists g2,
    midi_to_pianoroll_tensor m2 fs pitch_range include_velocity = Some g2
    /\ shape g2 = shape g1
    /\ forall t q, (t < fst (shape g1))%nat ->
                   (getitem g2 t q == getitem g1 t q)%Q.
Proof.
  intros Hend Hperm Hg1.
  destruct (encode_cells _ _ _ _ _ Hg1) as (HT & HP & _ & Hsh1 & Hcell1).
  destruct (midi_to_pianoroll_tensor m2 fs pitch_range include_velocity)
    as [g2|] eqn:Hg2.
  2:{ exfalso. unfold midi_to_pianoroll_tensor in Hg2. rewrite <- Hend in Hg2.
      destruct (Z.leb_spec (snd pitch_range - fst pitch_range) 0); [lia|].
      destruct (Z.ltb_spec (Py.ceil (get_end_time m1 * fs)) 0);
        [lia | discriminate]. }
  destruct (encode_cells _ _ _ _ _ Hg2) as (_ & _ & _ & Hsh2 & Hcell2).
  rewrite <- Hend in Hsh2, Hcell2.
  exists g2. split; [reflexivity|]. split; [congruence|].
  intros t q Ht. rewrite Hsh1 in Ht. simpl in Ht.
  rewrite Hcell1, Hcell2 by assumption.
  apply merge_fold_same_notes. intros note. split; intros Hin.
  - apply Permutation_in with (l := sounding_notes (instruments m2));
      [apply Permutation_sym|]; assumption.
  - apply Permutation_in with (l := sounding_notes (instruments m1));
      assumption.
Qed.

Lemma encode_order_independent_witness :
  exists g2,
    midi_to_pianoroll_tensor
      (mkPrettyMIDI (3 # 2)
         [mkInstrument false [mkNote 100 60 (1 # 2) (3 # 2)];
          mkInstrument false [mkNote 50 60 0 1]])
      2 (60, 62) true = Some g2
    /\ shape g2
       = shape (mkArray (3%nat, 2%nat)
                  [[50 # 127; 0]; [100 # 127; 0]; [100 # 127; 0]]%Q)
    /\ forall t q,
         (t < fst (shape (mkArray (3%nat, 2%nat)
                            [[50 # 127; 0]; [100 # 127; 0];
                             [100 # 127; 0]]%Q)))%nat ->
         (getitem g2 t q
          == getitem (mkArray (3%nat, 2%nat)
                        [[50 # 127; 0]; [100 # 127; 0]; [100 # 127; 0]]%Q)
                     t q)%Q.
Proof.
  apply (encode_order_independent
           (mkPrettyMIDI (3 # 2)
              [mkInstrument false
                 [mkNote 50 60 0 1; mkNote 100 60 (1 # 2) (3 # 2)]])
           (mkPrettyMIDI (3 # 2)
              [mkInstrument false [mkNote 100 60 (1 # 2) (3 # 2)];
               mkInstrument false [mkNote 50 60 0 1]])
           2 (60, 62) true).
  - reflexivity.
  - simpl. apply perm_swap.
  - reflexivity.
Defined.

(** *** Notes that start before time 0 *)

(** A negative start step is not clipped to the first row: as a slice
    bound it counts from the end of the array, so the note leaves every
    row before [num_time_steps + start_step] as it is without the note,
    the rows of its own time interval included. *)
Theorem encode_negative_start_counts_from_end
    (fs : Q) (pitch_range : Z * Z) (include_velocity : bool)
    (end_time : Q) (before after : list Instrument) (drum : bool)
    (l1 l2 : list Note) (note : Note) (g g' : ndarray) (t q : nat) :
  midi_to_pianoroll_tensor
    (mkPrettyMIDI end_time
       (before ++ mkInstrument drum (l1 ++ note :: l2) :: after))
    fs pitch_range include_velocity = Some g ->
  midi_to_pianoroll_tensor
    (mkPrettyMIDI end_time (before ++ mkInstrument drum (l1 ++ l2) :: after))
    fs pitch_range include_velocity = Some g' ->
  start_step fs note < 0 ->
  Z.of_nat t < Py.ceil (end_time * fs) + start_step fs note ->
  getitem g t q = getitem g' t q.
Proof.
  intros Hg Hg' Hneg Ht.
  destruct (encode_cells _ _ _ _ _ Hg) as (HT & _ & _ & _ & Hcell).
  destruct (encode_cells _ _ _ _ _ Hg') as (_ & _ & _ & _ & Hcell').
  simpl in HT, Hcell, Hcell'.
  rewrite Hcell, Hcell' by lia.
  unfold sounding_notes. rewrite !flat_map_app. simpl.
  destruct drum; [reflexivity|].
  assert (Hm : forall x,
             merge fs pitch_range include_velocity (Py.ceil (end_time * fs))
                   (Z.to_nat (Py.ceil (end_time * fs))) t q x note = x).
  { intros x. unfold merge, writes.
    assert (Hlo : (Py.slice_index (Z.to_nat (Py.ceil (end_time * fs)))
                                  (start_step fs note) <=? t)%nat = false).
    { apply Nat.leb_gt. unfold Py.slice_index.
      destruct (Z.ltb_spec (start_step fs note) 0); lia. }
    rewrite Hlo, !andb_false_r. reflexivity. }
  rewrite !fold_left_app. simpl. rewrite Hm. reflexivity.
Qed.

Lemma encode_negative_start_counts_from_end_witness :
  getitem (mkArray (8%nat, 1%nat) [[0]; [0]; [0]; [0]; [0]; [0]; [0]; [0]]%Q)
          0 0
  = getitem (mkArray (8%nat, 1%nat) [[0]; [0]; [0]; [0]; [0]; [0]; [0]; [0]]%Q)
            0 0.
Proof.
  apply (encode_negative_start_counts_from_end 4 (60, 61) true 2 [] [] false
           [] [] (mkNote 100 60 (- (1 # 4)) 1)
           (mkArray (8%nat, 1%nat) [[0]; [0]; [0]; [0]; [0]; [0]; [0]; [0]]%Q)
           (mkArray (8%nat, 1%nat) [[0]; [0]; [0]; [0]; [0]; [0]; [0]; [0]]%Q)
           0%nat 0%nat).
  - reflexivity.
  - reflexivity.
  - vm_compute. reflexivity.
  - vm_compute. reflexivity.
Defined.

(** * Further properties of the decoder *)

(** The notes returned by the decoder are exactly those of the maximal
    runs of active cells of the columns that pass the minimum-duration
    filter: one column per pitch from [pitch_min] on, the note of a run
    starting and ending with the run, with velocity [int(x * 127)] for the
    value [x] of the first cell of the run, the product being the one the
    float arithmetic gives. *)
Theorem decode_returns_the_long_runs
    (lib : Library) (piano_roll : ndarray) (file_path : string) (fs : Q)
    (pitch_range : Z * Z) (velocity_threshold : Q) (note_duration_steps : Z)
    (instrument_program : Z) (bpm : Q) (out : list Note)
    (note : Note) :
  pianoroll_tensor_to_midi lib piano_roll file_path fs pitch_range
    velocity_threshold note_duration_steps instrument_program bpm = Some out ->
  In note out
  <-> exists p s e,
        (p < snd (shape piano_roll))%nat
        /\ maximal_run velocity_threshold
                       (fun t => getitem piano_roll t p)
                       (fst (shape piano_roll)) s e = true
        /\ Z.of_nat e - Z.of_nat s >= note_duration_steps
        /\ note = mkNote (Py.int (mul_127 lib (getitem piano_roll s p)))
                         (fst pitch_range + Z.of_nat p)
                         (inject_Z (Z.of_nat s) * (1 / fs))
                         (inject_Z (Z.of_nat e) * (1 / fs)).
Proof. intros Hout. apply (decode_notes _ _ _ _ _ _ _ _ _ _ _ Hout). Qed.

Lemma decode_returns_the_long_runs_witness :
  In (mkNote 127 60 (1 * (1 / 4)) (3 * (1 / 4)))
     [mkNote 127 60 (1 * (1 / 4)) (3 * (1 / 4))]
  <-> exists p s e,
        (p < 2)%nat
        /\ maximal_run (1 # 2)
             (fun t => getitem (mkArray (4%nat, 2%nat)
                                  [[0; 0]; [1; 0]; [1; 0]; [0; 0]]%Q) t p)
             4 s e = true
        /\ Z.of_nat e - Z.of_nat s >= 2
        /\ mkNote 127 60 (1 * (1 / 4)) (3 * (1 / 4))
           = mkNote (Py.int
                       (mul_127 exact_library
                          (getitem (mkArray (4%nat, 2%nat)
                                      [[0; 0]; [1; 0]; [1; 0]; [0; 0]]%Q)
                                   s p)))
                    (60 + Z.of_nat p)
                    (inject_Z (Z.of_nat s) * (1 / 4))
                    (inject_Z (Z.of_nat e) * (1 / 4)).
Proof.
  apply (decode_returns_the_long_runs
           exact_library
           (mkArray (4%nat, 2%nat) [[0; 0]; [1; 0]; [1; 0]; [0; 0]]%Q)
           "output_from_gan.mid" 4 (60, 62) (1 # 2) 2 0 120
           [mkNote 127 60 (1 * (1 / 4)) (3 * (1 / 4))]
           (mkNote 127 60 (1 * (1 / 4)) (3 * (1 / 4)))).
  reflexivity.
Defined.

(** The pitches of the notes returned follow the columns of the grid:
    each lies between [pitch_min] and [pitch_min + num_pitches - 1], where
    [num_pitches] is the number of columns; the upper end of
    [pitch_range] is not used. *)
Theorem decode_pitches_follow_columns
    (lib : Library) (piano_roll : ndarray) (file_path : string) (fs : Q)
    (pitch_range : Z * Z) (velocity_threshold : Q) (note_duration_steps : Z)
    (instrument_program : Z) (bpm : Q) (out : list Note)
    (note : Note) :
  pianoroll_tensor_to_midi lib piano_roll file_path fs pitch_range
    velocity_threshold note_duration_steps instrument_program bpm = Some out ->
  In note out ->
  fst pitch_range <= pitch note
  < fst pitch_range + Z.of_nat (snd (shape piano_roll)).
Proof.
  intros Hout Hin.
  destruct (decode_pitches _ _ _ _ _ _ _ _ _ _ _ Hout Hin) as (p & Hp & ->).
  lia.
Qed.

Lemma decode_pitches_follow_columns_witness :
  60 <= pitch (mkNote 127 62 (0 * (1 / 4)) (1 * (1 / 4)))
  < 60 + Z.of_nat
           (snd (shape (mkArray (2%nat, 3%nat) [[0; 0; 1]; [0; 0; 0]]%Q))).
Proof.
  apply (decode_pitches_follow_columns
           exact_library (mkArray (2%nat, 3%nat) [[0; 0; 1]; [0; 0; 0]]%Q)
           "output_from_gan.mid" 4 (60, 62) (1 # 2) 1 0 120
           [mkNote 127 62 (0 * (1 / 4)) (1 * (1 / 4))]
           (mkNote 127 62 (0 * (1 / 4)) (1 * (1 / 4)))).
  - reflexivity.
  - simpl. auto.
Defined.

(** When every cell of the grid lies between 0 and 1, every note returned
    has a velocity between 0 and 127.  All that is used of the float
    product is that it takes a value between 0 and 1 to one between 0 and
    127, as a rounded product does: rounding is monotone, and 0 and 127
    are floats. *)
Theorem decode_velocities_in_midi_range
    (lib : Library) (piano_roll : ndarray) (file_path : string) (fs : Q)
    (pitch_range : Z * Z) (velocity_threshold : Q) (note_duration_steps : Z)
    (instrument_program : Z) (bpm : Q) (out : list Note)
    (note : Note) :
  pianoroll_tensor_to_midi lib piano_roll file_path fs pitch_range
    velocity_threshold note_duration_steps instrument_program bpm = Some out ->
  (forall x, (0 <= x <= 1)%Q -> (0 <= mul_127 lib x <= 127)%Q) ->
  (forall t p, (t < fst (shape piano_roll))%nat ->
               (p < snd (shape piano_roll))%nat ->
               (0 <= getitem piano_roll t p <= 1)%Q) ->
  In note out ->
  0 <= velocity note <= 127.
Proof.
  intros Hout Hmul Hcells Hin.
  apply (decode_notes _ _ _ _ _ _ _ _ _ _ _ Hout) in Hin.
  destruct Hin as (p & s & e & Hp & Hmax & _ & ->).
  apply maximal_run_iff in Hmax. destruct Hmax as (Hse & _).
  destruct (Hmul (getitem piano_roll s p)) as [Hlo Hhi];
    [apply Hcells; [lia | assumption]|].
  unfold closing_note. cbn [velocity].
  rewrite int_nonneg_floor by assumption. split.
  - rewrite <- (Qfloor_Z 0). apply Qfloor_resp_le. assumption.
  - rewrite <- (Qfloor_Z 127). apply Qfloor_resp_le. assumption.
Qed.

Lemma decode_velocities_in_midi_range_witness :
  0 <= velocity (mkNote 63 60 (0 * (1 / 4)) (1 * (1 / 4))) <= 127.
Proof.
  apply (decode_velocities_in_midi_range
           exact_library (mkArray (2%nat, 1%nat) [[1 # 2]; [0]]%Q)
           "output_from_gan.mid" 4 (60, 61) (1 # 10) 1 0 120
           [mkNote 63 60 (0 * (1 / 4)) (1 * (1 / 4))]
           (mkNote 63 60 (0 * (1 / 4)) (1 * (1 / 4)))).
  - reflexivity.
  - intros x Hx. simpl. lra.
  - intros [|[|t]] [|p] Ht Hp; simpl in *; try lia;
      unfold getitem; simpl; split; discriminate.
  - simpl. auto.
Defined.

(** A grid without any active cell (all cells below the threshold, or no
    time step at all) gives an empty note list, not a failure, provided
    that [pretty_midi] creates the MIDI object and the instrument and
    writes the file of an instrument without notes. *)
Theorem decode_silent_grid
    (lib : Library) (piano_roll : ndarray) (file_path : string) (fs : Q)
    (pitch_range : Z * Z) (velocity_threshold : Q) (note_duration_steps : Z)
    (instrument_program : Z) (bpm : Q) :
  ~ (fs == 0)%Q ->
  new_midi lib (Some bpm) = true ->
  new_instrument lib instrument_program = true ->
  write_midi lib (Some bpm) instrument_program [] file_path = true ->
  (forall t p, (t < fst (shape piano_roll))%nat ->
               (p < snd (shape piano_roll))%nat ->
               is_active velocity_threshold (getitem piano_roll t p) = false) ->
  pianoroll_tensor_to_midi lib piano_roll file_path fs pitch_range
    velocity_threshold note_duration_steps instrument_program bpm = Some [].
Proof.
  intros Hfs Hm Hi Hw Hsilent.
  apply decode_Some. repeat split; auto.
  destruct (scanned_notes lib piano_roll fs pitch_range velocity_threshold
                          note_duration_steps) as [|note out] eqn:Hout;
    [reflexivity|]. exfalso.
  assert (Hin : In note (scanned_notes lib piano_roll fs pitch_range
                           velocity_threshold note_duration_steps))
    by (rewrite Hout; simpl; auto).
  apply scanned_runs in Hin.
  destruct Hin as (p & s & e & Hp & Hmax & _).
  apply maximal_run_iff in Hmax. destruct Hmax as (Hse & Hall & _).
  assert (Hs : (s <= s < e)%nat) by lia.
  specialize (Hall s Hs). cbv beta in Hall.
  rewrite Hsilent in Hall; [discriminate | lia | assumption].
Qed.

Lemma decode_silent_grid_witness :
  pianoroll_tensor_to_midi exact_library
    (mkArray (2%nat, 1%nat) [[1 # 4]; [0]]%Q)
    "output_from_gan.mid" 4 (60, 61) (1 # 2) 1 0 120 = Some [].
Proof.
  apply (decode_silent_grid exact_library
           (mkArray (2%nat, 1%nat) [[1 # 4]; [0]]%Q)
           "output_from_gan.mid" 4 (60, 61) (1 # 2) 1 0 120).
  - discriminate.
  - reflexivity.
  - reflexivity.
  - reflexivity.
  - intros [|[|t]] [|p] Ht Hp; simpl in *; try lia; reflexivity.
Defined.

(** *** The notes of one pitch *)

Section TrackSorted.

Variable velocity_threshold : Q.
Variable note_duration_steps : Z.

Let track' := track velocity_threshold note_duration_steps.
Let apart (r1 r2 : nat * nat * Q) : Prop := (run_end r1 < run_start r2)%nat.

(** The runs tracked come in time order, each ending before the next
    begins. *)
Lemma track_apart (cells : list Q) :
  forall t open, StronglySorted apart (track' t cells open).
Proof.
  unfold track'.
  induction cells as [|x cells IH]; intros t open; simpl.
  - unfold close. destruct open as [[s v]|]; [|constructor].
    destruct (_ >=? _); repeat constructor.
  - destruct (is_active velocity_threshold x); [apply IH|].
    unfold close. destruct open as [[s v]|]; [|apply IH].
    destruct (_ >=? _); [|apply IH].
    simpl. constructor; [apply IH|].
    apply Forall_forall. intros r Hin.
    apply (track_starts velocity_threshold note_duration_steps cells (S t)
             None) in Hin.
    destruct Hin as [[v' Hv]|Hle]; [discriminate|].
    unfold apart, run_end. simpl. lia.
Qed.

End TrackSorted.

Lemma StronglySorted_map {X Y : Type} (R : X -> X -> Prop)
    (R' : Y -> Y -> Prop) (h : X -> Y) (l : list X) :
  (forall a b, R a b -> R' (h a) (h b)) ->
  StronglySorted R l -> StronglySorted R' (map h l).
Proof.
  intros Hh Hl. induction Hl as [|a l Hl IH Hall]; simpl; constructor.
  - assumption.
  - rewrite Forall_forall in *. intros y Hy.
    apply in_map_iff in Hy. destruct Hy as (b & <- & Hb). auto.
Qed.

Lemma filter_none {X : Type} (f : X -> bool) (l : list X) :
  (forall x, In x l -> f x = false) -> filter f l = [].
Proof.
  induction l as [|x l IH]; intros Hall; simpl; [reflexivity|].
  rewrite (Hall x) by (simpl; auto). apply IH.
  intros y Hy. apply Hall. simpl. auto.
Qed.

(** With a positive sample rate, the notes of one pitch come in time
    order in the list returned and never overlap: each ends strictly
    before every later one of the same pitch starts. *)
Theorem decode_same_pitch_notes_apart
    (lib : Library) (piano_roll : ndarray) (file_path : string) (fs : Q)
    (pitch_range : Z * Z) (velocity_threshold : Q) (note_duration_steps : Z)
    (instrument_program : Z) (bpm : Q) (out : list Note)
    (k : Z) :
  (0 < fs)%Q ->
  pianoroll_tensor_to_midi lib piano_roll file_path fs pitch_range
    velocity_threshold note_duration_steps instrument_program bpm = Some out ->
  StronglySorted ends_before (filter (has_pitch k) out).
Proof.
  intros Hfs Hout.
  destruct (Z_lt_le_dec k (fst pitch_range)) as [Hlow|Hlow].
  { assert (Hnil : filter (has_pitch k) out = []).
    { apply filter_none. intros note Hin. unfold has_pitch.
      destruct (decode_pitches _ _ _ _ _ _ _ _ _ _ _ Hout Hin) as (p & _ & ->).
      apply Z.eqb_neq. lia. }
    rewrite Hnil. constructor. }
  destruct (Nat.lt_ge_cases (Z.to_nat (k - fst pitch_range))
                            (snd (shape piano_roll))) as [Hp|Hp].
  - pose proof (decode_keep _ _ _ _ _ _ _ _ _ _ _ Hout Hp) as Hkeep.
    cbv zeta in Hkeep.
    replace (fst pitch_range + Z.of_nat (Z.to_nat (k - fst pitch_range)))
      with k in Hkeep by lia.
    rewrite Hkeep.
    apply (StronglySorted_map
             (fun r1 r2 => (run_end r1 < run_start r2)%nat)).
    + intros [[s1 e1] v1] [[s2 e2] v2] Hlt.
      unfold run_end, run_start in Hlt. simpl in Hlt.
      unfold ends_before. simpl. apply step_times_lt; [|assumption].
      unfold Qdiv. rewrite Qmult_1_l. apply Qinv_lt_0_compat. assumption.
    + apply track_apart.
  - assert (Hnil : filter (has_pitch k) out = []).
    { apply filter_none. intros note Hin. unfold has_pitch.
      destruct (decode_pitches _ _ _ _ _ _ _ _ _ _ _ Hout Hin)
        as (p & Hlt & ->).
      apply Z.eqb_neq. lia. }
    rewrite Hnil. constructor.
Qed.

Lemma decode_same_pitch_notes_apart_witness :
  StronglySorted ends_before
    (filter (has_pitch 60)
       [mkNote 127 60 (0 * (1 / 4)) (1 * (1 / 4));
        mkNote 127 61 (0 * (1 / 4)) (3 * (1 / 4));
        mkNote 127 60 (2 * (1 / 4)) (3 * (1 / 4))]).
Proof.
  apply (decode_same_pitch_notes_apart
           exact_library (mkArray (3%nat, 2%nat) [[1; 1]; [0; 1]; [1; 1]]%Q)
           "output_from_gan.mid" 4 (60, 62) (1 # 2) 1 0 120).
  - reflexivity.
  - reflexivity.
Defined.

(** The notes of a pitch depend on the column of the pitch alone: two
    grids with the same column [p] give the same notes of pitch
    [pitch_min + p], in the same order, whatever their other columns
    hold. *)
Theorem decode_pitches_independent
    (lib : Library) (g1 g2 : ndarray) (file_path : string) (fs : Q)
    (pitch_range : Z * Z) (velocity_threshold : Q) (note_duration_steps : Z)
    (instrument_program : Z) (bpm : Q)
    (out1 out2 : list Note) (p : nat) :
  pianoroll_tensor_to_midi lib g1 file_path fs pitch_range
    velocity_threshold note_duration_steps instrument_program bpm = Some out1 ->
  pianoroll_tensor_to_midi lib g2 file_path fs pitch_range
    velocity_threshold note_duration_steps instrument_program bpm = Some out2 ->
  (p < snd (shape g1))%nat -> (p < snd (shape g2))%nat ->
  column g1 p = column g2 p ->
  filter (has_pitch (fst pitch_range + Z.of_nat p)) out1
  = filter (has_pitch (fst pitch_range + Z.of_nat p)) out2.
Proof.
  intros Hout1 Hout2 Hp1 Hp2 Hcol.
  pose proof (decode_keep _ _ _ _ _ _ _ _ _ _ _ Hout1 Hp1) as H1.
  pose proof (decode_keep _ _ _ _ _ _ _ _ _ _ _ Hout2 Hp2) as H2.
  cbv zeta in H1, H2. rewrite H1, H2, Hcol. reflexivity.
Qed.

Lemma decode_pitches_independent_witness :
  filter (has_pitch (60 + Z.of_nat 0))
         [mkNote 127 60 (0 * (1 / 4)) (1 * (1 / 4));
          mkNote 127 61 (0 * (1 / 4)) (3 * (1 / 4));
          mkNote 127 60 (2 * (1 / 4)) (3 * (1 / 4))]
  = filter (has_pitch (60 + Z.of_nat 0))
           [mkNote 127 60 (0 * (1 / 4)) (1 * (1 / 4));
            mkNote 127 60 (2 * (1 / 4)) (3 * (1 / 4))].
Proof.
  apply (decode_pitches_independent
           exact_library
           (mkArray (3%nat, 2%nat) [[1; 1]; [0; 1]; [1; 1]]%Q)
           (mkArray (3%nat, 1%nat) [[1]; [0]; [1]]%Q)
           "output_from_gan.mid" 4 (60, 62) (1 # 2) 1 0 120).
  - reflexivity.
  - reflexivity.
  - simpl. lia.
  - simpl. lia.
  - reflexivity.
Defined.

(** *** Columns that are active throughout, and cells inside a run *)

Section TrackWhole.

Variable velocity_threshold : Q.
Variable note_duration_steps : Z.

Let track' := track velocity_threshold note_duration_steps.
Let active (x : Q) : Prop := is_active velocity_threshold x = true.

Lemma track_all_active (cells : list Q) :
  Forall active cells ->
  forall t s v,
    track' t cells (Some (s, v))
    = close note_duration_steps (Some (s, v)) (t + length cells).
Proof.
  unfold track'. induction 1 as [|x cells Hx _ IH]; intros t s v;
    cbn [track length].
  - rewrite Nat.add_0_r. reflexivity.
  - unfold active in Hx. rewrite Hx, IH. f_equal. lia.
Qed.

(** The runs of two columns that agree on which cells are active and on
    the values of the cells that begin a run. *)
Lemma track_agree (f1 f2 : nat -> Q) (n : nat) :
  forall t open,
    (forall i, (t <= i < t + n)%nat ->
       is_active velocity_threshold (f1 i)
       = is_active velocity_threshold (f2 i)
       /\ ((i = t /\ open = None
            \/ (t < i)%nat
               /\ is_active velocity_threshold (f1 (i - 1)%nat) = false) ->
           active (f1 i) -> f1 i = f2 i)) ->
    track' t (map f1 (seq t n)) open = track' t (map f2 (seq t n)) open.
Proof.
  unfold track'. induction n as [|n IH]; intros t open H; simpl;
    [reflexivity|].
  destruct (H t) as [Hact Honset]; [lia|].
  rewrite <- Hact.
  destruct (is_active velocity_threshold (f1 t)) eqn:Ht.
  - assert (Hopen : match open with
                    | Some _ => open
                    | None => Some (t, f1 t)
                    end
                    = match open with
                      | Some _ => open
                      | None => Some (t, f2 t)
                      end).
    { destruct open; [reflexivity|].
      rewrite Honset; [reflexivity | left; auto | exact Ht]. }
    rewrite <- Hopen. apply IH. intros i Hi.
    destruct (H i) as [Hact' Honset']; [lia|].
    split; [assumption|].
    intros [[-> Hnone]|[Hlt Hprev]] Hai.
    + destruct open; discriminate.
    + apply Honset'; [|assumption]. right. split; [lia | assumption].
  - f_equal. apply IH. intros i Hi.
    destruct (H i) as [Hact' Honset']; [lia|].
    split; [assumption|].
    intros [[-> _]|[Hlt Hprev]] Hai.
    + apply Honset'; [|assumption]. right. split; [lia|].
      simpl. rewrite Nat.sub_0_r. assumption.
    + apply Honset'; [|assumption]. right. split; [lia | assumption].
Qed.

End TrackWhole.

(** A column whose cells all pass the threshold (any column, with a
    threshold of 0 or below and cells that are not negative) gives one
    note of its pitch, from time 0 to the total duration of the grid, if
    the grid has at least [note_duration_steps] time steps, and none
    otherwise. *)
Theorem decode_column_active_throughout
    (lib : Library) (piano_roll : ndarray) (file_path : string) (fs : Q)
    (pitch_range : Z * Z) (velocity_threshold : Q) (note_duration_steps : Z)
    (instrument_program : Z) (bpm : Q) (out : list Note)
    (p : nat) :
  let T := fst (shape piano_roll) in
  let k := fst pitch_range + Z.of_nat p in
  pianoroll_tensor_to_midi lib piano_roll file_path fs pitch_range
    velocity_threshold note_duration_steps instrument_program bpm = Some out ->
  (p < snd (shape piano_roll))%nat ->
  (0 < T)%nat ->
  (forall t, (t < T)%nat ->
             is_active velocity_threshold (getitem piano_roll t p) = true) ->
  (note_duration_steps <= Z.of_nat T ->
   filter (has_pitch k) out
   = [mkNote (Py.int (mul_127 lib (getitem piano_roll 0 p))) k
             (0 * (1 / fs)) (inject_Z (Z.of_nat T) * (1 / fs))])
  /\ (Z.of_nat T < note_duration_steps -> filter (has_pitch k) out = []).
Proof.
  intros T k Hout Hp HT Hall.
  pose proof (decode_keep _ _ _ _ _ _ _ _ _ _ _ Hout Hp) as Hkeep.
  cbv zeta in Hkeep. fold k in Hkeep. rewrite Hkeep.
  unfold column. fold T.
  destruct T as [|T']; [lia|]. cbn [seq map track].
  rewrite (Hall 0%nat) by lia.
  rewrite track_all_active.
  2:{ apply Forall_forall. intros x Hx. apply in_map_iff in Hx.
      destruct Hx as (t & <- & Ht). apply in_seq in Ht. apply Hall. lia. }
  rewrite length_map, length_seq. unfold close.
  replace (1 + T')%nat with (S T') by lia.
  destruct (Z.geb_spec (Z.of_nat (S T') - Z.of_nat 0) note_duration_steps);
    split; intros Hlen; try lia; reflexivity.
Qed.

Lemma decode_column_active_throughout_witness :
  (1 <= Z.of_nat (fst (shape (mkArray (2%nat, 1%nat) [[0]; [1 # 2]]%Q))) ->
   filter (has_pitch (60 + Z.of_nat 0))
          [mkNote 0 60 (0 * (1 / 4)) (2 * (1 / 4))]
   = [mkNote (Py.int
                (mul_127 exact_library
                   (getitem (mkArray (2%nat, 1%nat) [[0]; [1 # 2]]%Q) 0 0)))
             (60 + Z.of_nat 0) (0 * (1 / 4))
             (inject_Z
                (Z.of_nat
                   (fst (shape (mkArray (2%nat, 1%nat) [[0]; [1 # 2]]%Q))))
              * (1 / 4))])
  /\ (Z.of_nat (fst (shape (mkArray (2%nat, 1%nat) [[0]; [1 # 2]]%Q))) < 1 ->
      filter (has_pitch (60 + Z.of_nat 0))
             [mkNote 0 60 (0 * (1 / 4)) (2 * (1 / 4))] = []).
Proof.
  apply (decode_column_active_throughout
           exact_library (mkArray (2%nat, 1%nat) [[0]; [1 # 2]]%Q)
           "output_from_gan.mid" 4 (60, 61) 0 1 0 120
           [mkNote 0 60 (0 * (1 / 4)) (2 * (1 / 4))] 0%nat).
  - reflexivity.
  - simpl. lia.
  - simpl. lia.
  - intros [|[|t]] Ht; simpl in *; try lia; reflexivity.
Defined.

(** Only the first cell of a run sets the velocity: two grids with as
    many rows whose columns [p] have the same active cells and the same
    values in the cells that begin a run give the same notes of pitch
    [pitch_min + p], whatever values the later cells of the runs hold. *)
Theorem decode_reads_onset_only
    (lib : Library) (g1 g2 : ndarray) (file_path : string) (fs : Q)
    (pitch_range : Z * Z) (velocity_threshold : Q) (note_duration_steps : Z)
    (instrument_program : Z) (bpm : Q)
    (out1 out2 : list Note) (p : nat) :
  pianoroll_tensor_to_midi lib g1 file_path fs pitch_range
    velocity_threshold note_duration_steps instrument_program bpm = Some out1 ->
  pianoroll_tensor_to_midi lib g2 file_path fs pitch_range
    velocity_threshold note_duration_steps instrument_program bpm = Some out2 ->
  (p < snd (shape g1))%nat -> (p < snd (shape g2))%nat ->
  fst (shape g1) = fst (shape g2) ->
  (forall t, (t < fst (shape g1))%nat ->
     is_active velocity_threshold (getitem g1 t p)
     = is_active velocity_threshold (getitem g2 t p)) ->
  (forall t, (t < fst (shape g1))%nat ->
     is_active velocity_threshold (getitem g1 t p) = true ->
     t = 0%nat
     \/ is_active velocity_threshold (getitem g1 (t - 1) p) = false ->
     getitem g1 t p = getitem g2 t p) ->
  filter (has_pitch (fst pitch_range + Z.of_nat p)) out1
  = filter (has_pitch (fst pitch_range + Z.of_nat p)) out2.
Proof.
  intros Hout1 Hout2 Hp1 Hp2 Hrows Hact Honset.
  pose proof (decode_keep _ _ _ _ _ _ _ _ _ _ _ Hout1 Hp1) as H1.
  pose proof (decode_keep _ _ _ _ _ _ _ _ _ _ _ Hout2 Hp2) as H2.
  cbv zeta in H1, H2. rewrite H1, H2. f_equal.
  unfold column. rewrite <- Hrows.
  apply track_agree. intros i Hi. split; [apply Hact; lia|].
  intros Hstart Hai. apply Honset; [lia | assumption|].
  destruct Hstart as [[-> _]|[_ Hprev]]; auto.
Qed.

Lemma decode_reads_onset_only_witness :
  filter (has_pitch (60 + Z.of_nat 0))
         [mkNote 127 60 (0 * (1 / 4)) (2 * (1 / 4))]
  = filter (has_pitch (60 + Z.of_nat 0))
           [mkNote 127 60 (0 * (1 / 4)) (2 * (1 / 4))].
Proof.
  apply (decode_reads_onset_only
           exact_library
           (mkArray (3%nat, 1%nat) [[1]; [1 # 2]; [0]]%Q)
           (mkArray (3%nat, 1%nat) [[1]; [3 # 4]; [1 # 4]]%Q)
           "output_from_gan.mid" 4 (60, 61) (1 # 2) 1 0 120
           [mkNote 127 60 (0 * (1 / 4)) (2 * (1 / 4))]
           [mkNote 127 60 (0 * (1 / 4)) (2 * (1 / 4))] 0%nat).
  - reflexivity.
  - reflexivity.
  - simpl. lia.
  - simpl. lia.
  - reflexivity.
  - intros [|[|[|t]]] Ht; simpl in *; try lia; reflexivity.
  - intros [|[|[|t]]] Ht Hact [Hz|Hprev]; simpl in *; try lia;
      try reflexivity; try discriminate.
Defined.

(** * [midi_to_sequence] and [sequence_to_midi] *)

Lemma midi_to_sequence_sounding (midi_data : PrettyMIDI) :
  midi_to_sequence (Some midi_data)
  = Some (map pitch (sounding_notes (instruments midi_data))).
Proof.
  unfold midi_to_sequence. f_equal.
  assert (Hnotes : forall l sequence,
             fold_left (fun sequence note => sequence ++ [pitch note])
                       l sequence
             = sequence ++ map pitch l).
  { induction l as [|note l IH]; intros sequence; simpl.
    - rewrite app_nil_r. reflexivity.
    - rewrite IH, <- app_assoc. reflexivity. }
  assert (Hinstr : forall l sequence,
             fold_left
               (fun sequence instrument =>
                  if is_drum instrument then sequence
                  else fold_left
                         (fun sequence note => sequence ++ [pitch note])
                         (notes instrument) sequence)
               l sequence
             = sequence ++ map pitch (sounding_notes l)).
  { induction l as [|i l IH]; intros sequence; simpl.
    - rewrite app_nil_r. reflexivity.
    - rewrite IH, map_app. destruct (is_drum i); simpl; [reflexivity|].
      rewrite Hnotes, <- app_assoc. reflexivity. }
  apply (Hinstr (instruments midi_data) []).
Qed.

(** The sequence read from a loaded MIDI object lists the pitches of the
    notes of its instruments in order, the drum instruments being left
    out. *)
Theorem midi_to_sequence_pitches (midi_data : PrettyMIDI) :
  midi_to_sequence (Some midi_data)
  = Some (map pitch (sounding_notes (instruments midi_data))).
Proof. apply midi_to_sequence_sounding. Qed.

Lemma map_pitch_timed_notes (note_duration : Q) (sequence : list Z) :
  forall t, map pitch (timed_notes note_duration t sequence) = sequence.
Proof.
  induction sequence as [|p sequence IH]; intros t; simpl; [reflexivity|].
  rewrite IH. reflexivity.
Qed.

Lemma sequence_to_midi_notes (sequence : list Z) (note_duration : Q) :
  forall notes t,
    fst (fold_left (append_note note_duration) sequence (notes, t))
    = notes ++ timed_notes note_duration t sequence.
Proof.
  induction sequence as [|p sequence IH]; intros notes t; simpl.
  - rewrite app_nil_r. reflexivity.
  - rewrite IH, <- app_assoc. reflexivity.
Qed.

(** The notes of the value of [sequence_to_midi], when there is one. *)
Lemma sequence_to_midi_Some (lib : Library) (sequence : list Z)
    (file_path : string) (bpm note_duration : Q) (instrument_program : Z)
    (out : list Note) :
  sequence_to_midi lib sequence file_path bpm note_duration
                   instrument_program = Some out ->
  out = timed_notes note_duration 0 sequence.
Proof.
  unfold sequence_to_midi.
  destruct (negb (new_midi lib None)); [discriminate|].
  destruct (negb (new_instrument lib instrument_program)); [discriminate|].
  destruct (Qeq_bool bpm 0); [discriminate|].
  rewrite sequence_to_midi_notes. cbn [app].
  destruct (negb (forallb _ _)); [discriminate|].
  destruct (negb (write_midi _ _ _ _ _)); [discriminate|].
  intros H. injection H as <-. reflexivity.
Qed.

(** [sequence_to_midi] keeps the sequence: the notes it builds have the
    pitches of the sequence, one note per pitch, in order. *)
Theorem sequence_to_midi_pitches
    (lib : Library) (sequence : list Z) (file_path : string)
    (bpm note_duration : Q) (instrument_program : Z) (out : list Note) :
  sequence_to_midi lib sequence file_path bpm note_duration
                   instrument_program = Some out ->
  map pitch out = sequence.
Proof.
  intros H. apply sequence_to_midi_Some in H. subst out.
  apply map_pitch_timed_notes.
Qed.

Lemma sequence_to_midi_pitches_witness :
  map pitch [mkNote 100 60 0 (0 + (1 # 2));
             mkNote 100 64 (0 + (1 # 2) * (1 # 2))
                    (0 + (1 # 2) * (1 # 2) + (1 # 2))]
  = [60; 64].
Proof.
  apply (sequence_to_midi_pitches exact_library [60; 64]
           "generated_music.mid" 120 (1 # 2) 0).
  reflexivity.
Defined.

Lemma timed_notes_nth (note_duration : Q) (sequence : list Z) :
  forall t i note,
    nth_error (timed_notes note_duration t sequence) i = Some note ->
    velocity note = 100
    /\ (start note == t + inject_Z (Z.of_nat i) * (note_duration * (1 # 2)))%Q
    /\ end_ note = (start note + note_duration)%Q.
Proof.
  induction sequence as [|p sequence IH]; intros t i note Hnth.
  - destruct i; discriminate.
  - destruct i as [|i]; simpl in Hnth.
    + injection Hnth as <-. simpl. repeat split; auto.
      rewrite Qmult_0_l. rewrite Qplus_0_r. reflexivity.
    + destruct (IH _ _ _ Hnth) as (Hv & Hs & He).
      repeat split; auto. rewrite Hs.
      rewrite Nat2Z.inj_succ. unfold Z.succ. rewrite inject_Z_plus. ring.
Qed.

(** The notes built by [sequence_to_midi] all have velocity 100 and last
    [note_duration]; the [i]-th one (from 0) starts at
    [i * note_duration / 2], so that each note sounds over the first half
    of the next one. *)
Theorem sequence_to_midi_timing
    (lib : Library) (sequence : list Z) (file_path : string)
    (bpm note_duration : Q) (instrument_program : Z) (out : list Note)
    (i : nat) (note : Note) :
  sequence_to_midi lib sequence file_path bpm note_duration
                   instrument_program = Some out ->
  nth_error out i = Some note ->
  velocity note = 100
  /\ (start note == inject_Z (Z.of_nat i) * (note_duration / 2))%Q
  /\ (end_ note == start note + note_duration)%Q.
Proof.
  intros H Hnth. apply sequence_to_midi_Some in H. subst out.
  destruct (timed_notes_nth _ _ _ _ _ Hnth) as (Hv & Hs & He).
  split; [assumption|]. split.
  - rewrite Hs. field.
  - rewrite He. reflexivity.
Qed.

Lemma sequence_to_midi_timing_witness :
  velocity (mkNote 100 64 (0 + (1 # 2) * (1 # 2))
                   (0 + (1 # 2) * (1 # 2) + (1 # 2))) = 100
  /\ (start (mkNote 100 64 (0 + (1 # 2) * (1 # 2))
                    (0 + (1 # 2) * (1 # 2) + (1 # 2)))
      == inject_Z (Z.of_nat 1) * ((1 # 2) / 2))%Q
  /\ (end_ (mkNote 100 64 (0 + (1 # 2) * (1 # 2))
                   (0 + (1 # 2) * (1 # 2) + (1 # 2)))
      == start (mkNote 100 64 (0 + (1 # 2) * (1 # 2))
                       (0 + (1 # 2) * (1 # 2) + (1 # 2)))
         + (1 # 2))%Q.
Proof.
  apply (sequence_to_midi_timing exact_library [60; 64]
           "generated_music.mid" 120 (1 # 2) 0
           [mkNote 100 60 0 (0 + (1 # 2));
            mkNote 100 64 (0 + (1 # 2) * (1 # 2))
                   (0 + (1 # 2) * (1 # 2) + (1 # 2))] 1%nat).
  - reflexivity.
  - reflexivity.
Defined.

(** * [enhance_midi_quality] *)

Lemma enhance_notes (rand : nat -> Z * Q) (l : list Note) :
  forall out i,
    fold_left (enhance_note rand) l (out, i)
    = (out ++ enhanced rand i l, (i + length l)%nat).
Proof.
  induction l as [|note l IH]; intros out i; simpl.
  - rewrite app_nil_r, Nat.add_0_r. reflexivity.
  - rewrite IH, <- app_assoc. simpl. f_equal. lia.
Qed.

Lemma enhanced_app (rand : nat -> Z * Q) (l1 l2 : list Note) :
  forall i,
    enhanced rand i (l1 ++ l2)
    = enhanced rand i l1 ++ enhanced rand (i + length l1) l2.
Proof.
  induction l1 as [|note l1 IH]; intros i; simpl.
  - rewrite Nat.add_0_r. reflexivity.
  - rewrite IH. do 3 f_equal. lia.
Qed.

(** The notes written by [enhance_midi_quality]: one per note of the
    file, over all instruments. *)
Lemma enhance_all_notes (lib : Library) (midi : PrettyMIDI)
    (output_path : string) (rand : nat -> Z * Q) (instrument_program : Z)
    (out : list Note) :
  enhance_midi_quality lib (Some midi) output_path rand instrument_program
  = Some out ->
  out = enhanced rand 0 (all_notes (instruments midi)).
Proof.
  unfold enhance_midi_quality.
  destruct (negb (new_midi lib None)); [discriminate|].
  destruct (negb (new_instrument lib instrument_program)); [discriminate|].
  assert (H : forall l out i,
             fold_left
               (fun st instr => fold_left (enhance_note rand) (notes instr) st)
               l (out, i)
             = (out ++ enhanced rand i (all_notes l),
                (i + length (all_notes l))%nat)).
  { induction l as [|instr l IH]; intros out' i; simpl.
    - rewrite app_nil_r, Nat.add_0_r. reflexivity.
    - rewrite enhance_notes, IH, enhanced_app, <- app_assoc, length_app.
      f_equal. lia. }
  rewrite H. cbn [fst app].
  destruct (negb (forallb _ _)); [discriminate|].
  destruct (negb (write_midi _ _ _ _ _)); [discriminate|].
  intros E. injection E as <-. reflexivity.
Qed.

(** [enhance_midi_quality] keeps every note of every instrument, drum
    instruments included, in order and in one instrument: the notes it
    writes have the pitches and the start times of the notes of the file,
    whatever numbers are drawn. *)
Theorem enhance_keeps_pitch_and_start
    (lib : Library) (midi : PrettyMIDI) (output_path : string)
    (rand : nat -> Z * Q) (instrument_program : Z) (out : list Note) :
  enhance_midi_quality lib (Some midi) output_path rand instrument_program
  = Some out ->
  map pitch out = map pitch (all_notes (instruments midi))
  /\ map start out = map start (all_notes (instruments midi)).
Proof.
  intros H. apply enhance_all_notes in H. subst out.
  generalize 0%nat. induction (all_notes (instruments midi)) as [|note l IH];
    intros i; simpl; [auto|].
  destruct (IH (S i)) as [H1 H2]. rewrite H1, H2. auto.
Qed.

Lemma enhance_keeps_pitch_and_start_witness :
  map pitch [mkNote 90 60 0 (0 + (1 - 0) * 1);
             mkNote 90 36 (1 # 2) ((1 # 2) + (1 - (1 # 2)) * 1)]
  = map pitch
        (all_notes [mkInstrument false [mkNote 50 60 0 1];
                    mkInstrument true [mkNote 70 36 (1 # 2) 1]])
  /\ map start [mkNote 90 60 0 (0 + (1 - 0) * 1);
                mkNote 90 36 (1 # 2) ((1 # 2) + (1 - (1 # 2)) * 1)]
     = map start
           (all_notes [mkInstrument false [mkNote 50 60 0 1];
                       mkInstrument true [mkNote 70 36 (1 # 2) 1]]).
Proof.
  apply (enhance_keeps_pitch_and_start
           exact_library
           (mkPrettyMIDI 1 [mkInstrument false [mkNote 50 60 0 1];
                            mkInstrument true [mkNote 70 36 (1 # 2) 1]])
           "enhanced.mid" (fun _ => (90, 1%Q)) 0).
  reflexivity.
Defined.

(** When the numbers drawn are in the ranges asked for (velocity from 60
    to 127, factor from 0.9 to 1.1) and no note of the file ends before it
    starts, every note written has a velocity from 60 to 127 and does not
    end before it starts. *)
Theorem enhance_notes_well_formed
    (lib : Library) (midi : PrettyMIDI) (output_path : string)
    (rand : nat -> Z * Q) (instrument_program : Z) (out : list Note)
    (note : Note) :
  enhance_midi_quality lib (Some midi) output_path rand instrument_program
  = Some out ->
  (forall i, 60 <= fst (rand i) <= 127
             /\ (9 # 10 <= snd (rand i) <= 11 # 10)%Q) ->
  Forall (fun n => (start n <= end_ n)%Q) (all_notes (instruments midi)) ->
  In note out ->
  60 <= velocity note <= 127 /\ (start note <= end_ note)%Q.
Proof.
  intros H Hrand Hall Hin. apply enhance_all_notes in H. subst out.
  revert Hin. generalize 0%nat.
  induction Hall as [|n l Hn _ IH]; intros i Hin; simpl in Hin;
    [contradiction|].
  destruct Hin as [<-|Hin]; [|apply (IH (S i) Hin)].
  simpl. destruct (Hrand i) as [Hv [Hlo Hhi]]. split; [assumption|].
  assert (H0 : (0 <= (end_ n - start n) * snd (rand i))%Q).
  { apply Qmult_le_0_compat; lra. }
  lra.
Qed.

Lemma enhance_notes_well_formed_witness :
  60 <= velocity (mkNote 90 60 0 (0 + (1 - 0) * 1)) <= 127
  /\ (start (mkNote 90 60 0 (0 + (1 - 0) * 1))
      <= end_ (mkNote 90 60 0 (0 + (1 - 0) * 1)))%Q.
Proof.
  apply (enhance_notes_well_formed
           exact_library
           (mkPrettyMIDI 1 [mkInstrument false [mkNote 50 60 0 1];
                            mkInstrument true [mkNote 70 36 (1 # 2) 1]])
           "enhanced.mid" (fun _ => (90, 1%Q)) 0
           [mkNote 90 60 0 (0 + (1 - 0) * 1);
            mkNote 90 36 (1 # 2) ((1 # 2) + (1 - (1 # 2)) * 1)]).
  - reflexivity.
  - intros i. simpl. split; [lia|]. split; discriminate.
  - repeat constructor; simpl; discriminate.
  - simpl. auto.
Defined.

(** * Cells and notes inside the window *)

(** A merged cell holds its initial value or the value of one of the
    notes that write it. *)
Lemma merge_fold_written (fs : Q) (pitch_range : Z * Z)
    (include_velocity : bool) (T' : Z) (n t q : nat) (l : list Note) :
  forall x,
    let y := fold_left (merge fs pitch_range include_velocity T' n t q) l x in
    y = x
    \/ exists note,
         In note l /\ writes fs pitch_range T' n note t q = true
         /\ y = value include_velocity note.
Proof.
  induction l as [|note l IH]; intros x; simpl; [auto|].
  destruct (IH (merge fs pitch_range include_velocity T' n t q x note))
    as [Hy|(note' & Hin & Hw & Hy)].
  - simpl in Hy. rewrite Hy. unfold merge.
    destruct (writes fs pitch_range T' n note t q) eqn:Hw; [|auto].
    unfold Py.maximum. destruct (Qle_bool _ _); [|auto].
    right. exists note. auto.
  - right. exists note'. auto.
Qed.

(** Each cell of the encoded array holds the largest intensity among the
    notes that write it: it is at least the intensity of each of them, and
    it is 0 or the intensity of one of them. *)
Theorem encode_cell_is_largest_written
    (midi_data : PrettyMIDI) (fs : Q) (pitch_range : Z * Z)
    (include_velocity : bool) (g : ndarray) (t q : nat) :
  midi_to_pianoroll_tensor midi_data fs pitch_range include_velocity = Some g ->
  (t < fst (shape g))%nat ->
  (0 <= getitem g t q)%Q
  /\ Forall (fun note => (value include_velocity note <= getitem g t q)%Q)
            (writers midi_data fs pitch_range t q)
  /\ (getitem g t q = 0%Q
      \/ exists note,
           In note (writers midi_data fs pitch_range t q)
           /\ getitem g t q = value include_velocity note).
Proof.
  intros Hg Ht.
  destruct (encode_cells _ _ _ _ _ Hg) as (_ & _ & _ & Hsh & Hcell).
  rewrite Hsh in Ht. simpl in Ht. rewrite Hcell by assumption.
  split; [apply merge_fold_ge_init|]. split.
  - apply Forall_forall. intros note Hin. unfold writers in Hin.
    apply filter_In in Hin. destruct Hin as [Hin Hw].
    apply merge_fold_ge_note; assumption.
  - destruct (merge_fold_written fs pitch_range include_velocity
                (Py.ceil (get_end_time midi_data * fs))
                (Z.to_nat (Py.ceil (get_end_time midi_data * fs))) t q
                (sounding_notes (instruments midi_data)) 0%Q)
      as [H0|(note & Hin & Hw & Hy)]; [left; exact H0|].
    right. exists note. split; [|exact Hy].
    unfold writers. apply filter_In. auto.
Qed.

Lemma encode_cell_is_largest_written_witness :
  (0 <= getitem
          (mkArray (3%nat, 2%nat)
             [[50 # 127; 0]; [100 # 127; 0]; [100 # 127; 0]]%Q) 1 0)%Q
  /\ Forall
       (fun note =>
          (value true note
           <= getitem
                (mkArray (3%nat, 2%nat)
                   [[50 # 127; 0]; [100 # 127; 0]; [100 # 127; 0]]%Q) 1 0)%Q)
       (writers
          (mkPrettyMIDI (3 # 2)
             [mkInstrument false
                [mkNote 50 60 0 1; mkNote 100 60 (1 # 2) (3 # 2)]])
          2 (60, 62) 1 0)
  /\ (getitem
        (mkArray (3%nat, 2%nat)
           [[50 # 127; 0]; [100 # 127; 0]; [100 # 127; 0]]%Q) 1 0 = 0%Q
      \/ exists note,
           In note
              (writers
                 (mkPrettyMIDI (3 # 2)
                    [mkInstrument false
                       [mkNote 50 60 0 1; mkNote 100 60 (1 # 2) (3 # 2)]])
                 2 (60, 62) 1 0)
           /\ getitem
                (mkArray (3%nat, 2%nat)
                   [[50 # 127; 0]; [100 # 127; 0]; [100 # 127; 0]]%Q) 1 0
              = value true note).
Proof.
  apply (encode_cell_is_largest_written
           (mkPrettyMIDI (3 # 2)
              [mkInstrument false
                 [mkNote 50 60 0 1; mkNote 100 60 (1 # 2) (3 # 2)]])
           2 (60, 62) true).
  - reflexivity.
  - simpl. lia.
Defined.

(** No note is lost inside the window: a note of an instrument that is
    not a drum, with an in-range pitch and a start step that is not
    negative, leaves at least its intensity in every cell of its pitch
    from its start step up to its end step or the end of the window,
    whichever comes first. *)
Theorem encode_note_is_written
    (midi_data : PrettyMIDI) (fs : Q) (pitch_range : Z * Z)
    (include_velocity : bool) (g : ndarray) (note : Note) (t : nat) :
  midi_to_pianoroll_tensor midi_data fs pitch_range include_velocity = Some g ->
  In note (sounding_notes (instruments midi_data)) ->
  fst pitch_range <= pitch note < snd pitch_range ->
  0 <= start_step fs note <= Z.of_nat t ->
  Z.of_nat t < end_step fs note ->
  (t < fst (shape g))%nat ->
  (value include_velocity note
   <= getitem g t (Z.to_nat (pitch note - fst pitch_range)))%Q.
Proof.
  intros Hg Hin Hp Hs He Ht.
  destruct (encode_cells _ _ _ _ _ Hg) as (HT & _ & _ & Hsh & Hcell).
  rewrite Hsh in Ht. simpl in Ht. rewrite Hcell by assumption.
  apply merge_fold_ge_note; [assumption|].
  apply writes_interval; lia.
Qed.

Lemma encode_note_is_written_witness :
  (value true (mkNote 50 60 0 1)
   <= getitem
        (mkArray (3%nat, 2%nat)
           [[50 # 127; 0]; [100 # 127; 0]; [100 # 127; 0]]%Q)
        1 (Z.to_nat (60 - 60)))%Q.
Proof.
  apply (encode_note_is_written
           (mkPrettyMIDI (3 # 2)
              [mkInstrument false
                 [mkNote 50 60 0 1; mkNote 100 60 (1 # 2) (3 # 2)]])
           2 (60, 62) true).
  - reflexivity.
  - simpl. auto.
  - simpl. lia.
  - vm_compute. split; discriminate.
  - vm_compute. reflexivity.
  - simpl. lia.
Defined.

(** With a positive sample rate, every note returned by the decoder lies
    inside the grid: it starts at time 0 or later and ends no later than
    the total duration [num_time_steps * (1 / fs)]. *)
Theorem decode_notes_within_grid
    (lib : Library) (piano_roll : ndarray) (file_path : string) (fs : Q)
    (pitch_range : Z * Z) (velocity_threshold : Q) (note_duration_steps : Z)
    (instrument_program : Z) (bpm : Q) (out : list Note)
    (note : Note) :
  (0 < fs)%Q ->
  pianoroll_tensor_to_midi lib piano_roll file_path fs pitch_range
    velocity_threshold note_duration_steps instrument_program bpm = Some out ->
  In note out ->
  (0 <= start note)%Q
  /\ (end_ note
      <= inject_Z (Z.of_nat (fst (shape piano_roll))) * (1 / fs))%Q.
Proof.
  intros Hfs Hout Hin.
  apply (decode_notes _ _ _ _ _ _ _ _ _ _ _ Hout) in Hin.
  destruct Hin as (p & s & e & _ & Hmax & _ & ->).
  apply maximal_run_iff in Hmax. destruct Hmax as ((Hse & HeT) & _).
  assert (Hsps : (0 <= / fs)%Q)
    by (apply Qlt_le_weak, Qinv_lt_0_compat; assumption).
  simpl. unfold Qdiv. rewrite !Qmult_1_l. split.
  - apply Qmult_le_0_compat; [|assumption].
    change 0%Q with (inject_Z 0). rewrite <- Zle_Qle. lia.
  - apply Qmult_le_compat_r; [|assumption].
    rewrite <- Zle_Qle. lia.
Qed.

Lemma decode_notes_within_grid_witness :
  (0 <= start (mkNote 127 60 (1 * (1 / 4)) (3 * (1 / 4))))%Q
  /\ (end_ (mkNote 127 60 (1 * (1 / 4)) (3 * (1 / 4)))
      <= inject_Z
           (Z.of_nat (fst (shape (mkArray (3%nat, 1%nat) [[0]; [1]; [1]]%Q))))
         * (1 / 4))%Q.
Proof.
  apply (decode_notes_within_grid
           exact_library (mkArray (3%nat, 1%nat) [[0]; [1]; [1]]%Q)
           "output_from_gan.mid" 4 (60, 61) (1 # 2) 1 0 120
           [mkNote 127 60 (1 * (1 / 4)) (3 * (1 / 4))]).
  - reflexivity.
  - reflexivity.
  - simpl. auto.
Defined.
